(** * FastBERT early-exit inference: uncertainty scoring and batch scheduling

    Shallow embedding of [uf/apps/fastbert/fastbert_classifier.py]:
    the closures [_uncertainty] and [_permutate] of
    [FastBERTClassifier._get_predict_outputs] (textually repeated in
    [_get_score_outputs]) and the configuration prologue shared by
    [predict], [score] and [export].

    Numeric convention.  numpy scalars are idealised as extended reals:
    a finite value is a real number (no rounding, no signed zero), and
    the three non-finite values [inf], [-inf] and [nan] are kept, with
    numpy's rules for operations that produce or consume them.  Python
    exceptions are values of an error monad. *)

From Stdlib Require Import Reals Lra ZArith Lia.
From stdpp Require Import base list gmap strings.

(** ** Exceptions and the error monad *)

Inductive exn : Type :=
| ZeroDivisionError
| IndexError
| AssertionError.

Inductive result (A : Type) : Type :=
| Ok (a : A)
| Raise (e : exn).

Arguments Ok {A} a.
Arguments Raise {A} e.

Definition bind {A B : Type} (m : result A) (f : A -> result B) : result B :=
  match m with
  | Ok a => f a
  | Raise e => Raise e
  end.

Notation "'let*' x ':=' m 'in' k" := (bind m (fun x => k))
  (at level 10, x pattern, m at level 100, k at level 200).

(** [for x in xs: acc = body(acc, x)], stopping at the first exception. *)
Fixpoint for_each {A S : Type} (body : S -> A -> result S) (xs : list A) (acc : S)
  : result S :=
  match xs with
  | [] => Ok acc
  | x :: xs' => let* acc' := body acc x in for_each body xs' acc'
  end.

(** [xs[k]] for a non-negative index [k]. *)
Definition getitem {A : Type} (xs : list A) (k : nat) : result A :=
  match xs !! k with
  | Some x => Ok x
  | None => Raise IndexError
  end.

(** [xs[k] = v] on a numpy array, for a non-negative index [k]. *)
Definition setitem {A : Type} (xs : list A) (k : nat) (v : A) : result (list A) :=
  if decide (k < length xs) then Ok (<[k := v]> xs) else Raise IndexError.

(** ** numpy scalars *)

Inductive npfloat : Type :=
| Fin (r : R)
| PInf
| NInf
| NaN.

Definition Rltb (a b : R) : bool := if Rlt_dec a b then true else false.

#[global] Instance R_eq_dec : EqDecision R := Req_dec_T.

(** The infinity with the sign of [a] times the sign of the infinity
    ([pos = true] for [inf]); [nan] when [a] is zero. *)
Definition signed_inf (a : R) (pos : bool) : npfloat :=
  if Rltb 0 a then (if pos then PInf else NInf)
  else if Rltb a 0 then (if pos then NInf else PInf)
  else NaN.

Definition np_lt (x y : npfloat) : bool :=
  match x, y with
  | NaN, _ | _, NaN => false
  | Fin a, Fin b => Rltb a b
  | NInf, NInf => false
  | NInf, _ => true
  | _, NInf => false
  | PInf, _ => false
  | Fin _, PInf => true
  end.

Definition np_neg (x : npfloat) : npfloat :=
  match x with
  | Fin a => Fin (- a)
  | PInf => NInf
  | NInf => PInf
  | NaN => NaN
  end.

Definition np_add (x y : npfloat) : npfloat :=
  match x, y with
  | NaN, _ | _, NaN => NaN
  | Fin a, Fin b => Fin (a + b)
  | PInf, NInf | NInf, PInf => NaN
  | PInf, _ | _, PInf => PInf
  | NInf, _ | _, NInf => NInf
  end.

Definition np_sub (x y : npfloat) : npfloat := np_add x (np_neg y).

Definition np_mul (x y : npfloat) : npfloat :=
  match x, y with
  | NaN, _ | _, NaN => NaN
  | Fin a, Fin b => Fin (a * b)
  | Fin a, PInf | PInf, Fin a => signed_inf a true
  | Fin a, NInf | NInf, Fin a => signed_inf a false
  | PInf, PInf | NInf, NInf => PInf
  | PInf, NInf | NInf, PInf => NInf
  end.

Definition np_div (x y : npfloat) : npfloat :=
  match x, y with
  | NaN, _ | _, NaN => NaN
  | Fin a, Fin b =>
      if decide (b = 0%R) then signed_inf a true else Fin (a / b)
  | Fin _, (PInf | NInf) => Fin 0
  | PInf, Fin b => if Rltb b 0 then NInf else PInf
  | NInf, Fin b => if Rltb b 0 then PInf else NInf
  | (PInf | NInf), (PInf | NInf) => NaN
  end.

(** [np.log]: [-inf] at zero and [nan] below it. *)
Definition np_log (x : npfloat) : npfloat :=
  match x with
  | Fin a => if Rltb 0 a then Fin (ln a) else if Rltb a 0 then NaN else NInf
  | PInf => PInf
  | NInf => NaN
  | NaN => NaN
  end.

(** [a / b] on Python integers (true division). *)
Definition py_truediv (a b : nat) : result npfloat :=
  match b with
  | O => Raise ZeroDivisionError
  | S _ => Ok (Fin (INR a / INR b))
  end.

(** ** The uncertainty scorer (lines 212-215, repeated at 274-277) *)

Definition tiny : R := 1e-20.

Definition _uncertainty (label_size : nat) (prob : npfloat) : result npfloat :=
  let prob :=
    if np_lt prob (Fin tiny) || np_lt (np_sub (Fin 1) prob) (Fin tiny)
    then Fin tiny else prob in
  let* inv := py_truediv 1 label_size in
  Ok (np_div
        (np_add (np_mul prob (np_log prob))
                (np_mul (np_sub (Fin 1) prob) (np_log (np_sub (Fin 1) prob))))
        (np_log inv)).

(** The divisor of [_uncertainty], on its own. *)
Definition uncertainty_divisor (label_size : nat) : result npfloat :=
  let* inv := py_truediv 1 label_size in Ok (np_log inv).

(** ** The early-exit scheduler (lines 217-245, repeated at 279-307)

    [batch_probs] is a two-dimensional array: a list of rows, each with
    one probability per label.  The arrays [probs] and [sources] and the
    counter [i] are threaded as a state.  The state also carries a
    history with one entry per iteration of the innermost loop; it is
    only appended to and never read by the scheduler. *)

Definition row : Type := list npfloat.

Record event : Type := mk_event {
  ev_device : nat;    (* d *)
  ev_loop : nat;      (* loop *)
  ev_example : nat;   (* unfinished[k] *)
  ev_row : nat;       (* i, the row of batch_probs read *)
  ev_source : Z;      (* keep_cls[loop] *)
  ev_exit : bool      (* whether the example was given its result *)
}.

Record state : Type := mk_state {
  st_probs : list row;
  st_sources : list Z;
  st_i : nat;
  st_history : list event
}.

(** Body of [for k in range(len(unfinished))], at [unfinished[k] = example]. *)
Definition visit (label_size : nat) (speed : R) (batch_probs : list row)
    (max_loop : Z) (d loop : nat) (source : Z)
    (acc : state * list nat) (example : nat) : result (state * list nat) :=
  let '(st, next_unfinished) := acc in
  let* r := getitem batch_probs (st_i st) in
  let* p := getitem r 0 in
  let* u := _uncertainty label_size p in
  if np_lt u (Fin speed) || (Z.of_nat loop =? max_loop - 1)%Z then
    let* probs := setitem (st_probs st) example r in
    let* sources := setitem (st_sources st) example source in
    Ok (mk_state probs sources (S (st_i st))
          (st_history st ++ [mk_event d loop example (st_i st) source true]),
        next_unfinished)
  else
    Ok (mk_state (st_probs st) (st_sources st) (S (st_i st))
          (st_history st ++ [mk_event d loop example (st_i st) source false]),
        next_unfinished ++ [example]).

(** Body of [for loop in range(max_loop)]: from [unfinished] to
    [next_unfinished]. *)
Definition run_loop (label_size : nat) (speed : R) (batch_probs : list row)
    (max_loop : Z) (keep_cls : list Z) (d : nat)
    (acc : state * list nat) (loop : nat) : result (state * list nat) :=
  let '(st, unfinished) := acc in
  let* source := getitem keep_cls loop in
  for_each (visit label_size speed batch_probs max_loop d loop source)
    unfinished (st, []).

(** [[k + i for k in range(d_batch_size)]]. *)
Definition initial_unfinished (d_batch_size i : nat) : list nat :=
  map (fun k => k + i) (seq 0 d_batch_size).

(** Body of [for d in range(n_device)], keeping the last [unfinished]. *)
Definition run_device (label_size : nat) (speed : R) (batch_probs : list row)
    (max_loop : Z) (keep_cls : list Z) (d_batch_size : nat)
    (st : state) (d : nat) : result (state * list nat) :=
  for_each (run_loop label_size speed batch_probs max_loop keep_cls d)
    (seq 0 (Z.to_nat max_loop))
    (st, initial_unfinished d_batch_size (st_i st)).

(** The fields of [self] that [_permutate] reads. *)
Record config : Type := mk_config {
  _gpu_ids : list Z;
  batch_size : nat;
  label_size : nat;
  num_hidden_layers : nat;      (* self.bert_config.num_hidden_layers *)
  _ignore_cls : list Z;
  _speed : R
}.

Definition n_device (self : config) : nat := max (length (_gpu_ids self)) 1.

Definition d_batch_size (self : config) : nat := batch_size self / n_device self.

Definition max_loop (self : config) : Z :=
  (Z.of_nat (num_hidden_layers self) + 1 - Z.of_nat (length (_ignore_cls self)))%Z.

Definition keep_cls (self : config) : list Z :=
  filter (fun cls_idx => cls_idx ∉ _ignore_cls self)
    (seqZ 0 (Z.of_nat (num_hidden_layers self) + 1)).

Definition initial_state (self : config) : state :=
  mk_state (replicate (batch_size self) (replicate (label_size self) (Fin 0)))
    (replicate (batch_size self) 0%Z) 0 [].

(** [_permutate] up to, and without, its closing assertion. *)
Definition permutate_loops (self : config) (batch_probs : list row) : result state :=
  for_each
    (fun st d =>
       let* (st', _) :=
         run_device (label_size self) (_speed self) batch_probs
           (max_loop self) (keep_cls self) (d_batch_size self) st d in
       Ok st')
    (seq 0 (n_device self)) (initial_state self).

Definition _permutate (self : config) (batch_probs : list row)
  : result (list row * list Z) :=
  let* st := permutate_loops self batch_probs in
  if decide (st_i st = length batch_probs)
  then Ok (st_probs st, st_sources st)
  else Raise AssertionError.

(** The row-by-row effect of a history entry on [sources] and [probs]. *)
Definition apply_source (sources : list Z) (e : event) : list Z :=
  if ev_exit e then <[ev_example e := ev_source e]> sources else sources.

Definition apply_prob (batch_probs : list row) (probs : list row) (e : event)
  : list row :=
  if ev_exit e then
    match batch_probs !! ev_row e with
    | Some r => <[ev_example e := r]> probs
    | None => probs
    end
  else probs.

(** The examples that were given their result in a stretch of history. *)
Definition exited (evs : list event) : list nat :=
  ev_example <$> filter (fun e => ev_exit e = true) evs.

(** What [visit] decided for a history entry, and from what. *)
Definition event_sound (label_size : nat) (speed : R) (batch_probs : list row)
    (max_loop : Z) (keep_cls : list Z) (e : event) : Prop :=
  exists (r : row) (p u : npfloat),
    batch_probs !! ev_row e = Some r /\
    r !! 0 = Some p /\
    _uncertainty label_size p = Ok u /\
    ev_exit e = np_lt u (Fin speed) || (Z.of_nat (ev_loop e) =? max_loop - 1)%Z /\
    keep_cls !! ev_loop e = Some (ev_source e).

(** ** The scorer in the specification's words, over the reals *)

Definition clamp (p : R) : R :=
  if Rltb p 1e-20 || Rltb (1 - p) 1e-20 then 1e-20%R else p.

Definition uncertainty_formula (label_size : nat) (p : R) : R :=
  let p := clamp p in
  ((p * ln p + (1 - p) * ln (1 - p)) / ln (1 / INR label_size))%R.

(** ** The prologue of [predict], [score] and [export] (lines 70-78,
    100-108, 129-137)

    [convert_ignore_cls] lives in [fastbert.py] and the values of
    [_session_mode] in the base module; both are parameters here. *)

Module Prologue.
Section prologue.

Variable mode : Type.
Variable raw_ignore_cls : Type.
Variable convert_ignore_cls : raw_ignore_cls -> result (list Z).

Record instance : Type := mk_instance {
  _ignore_cls : list Z;
  _speed : R;
  _session_mode : option mode
}.

Definition predict (self : instance) (speed : R) (ignore_cls : raw_ignore_cls)
  : result instance :=
  let* ignore_cls := convert_ignore_cls ignore_cls in
  let self :=
    if decide (ignore_cls <> _ignore_cls self)
    then mk_instance ignore_cls (_speed self) None else self in
  let self :=
    if decide (speed <> _speed self)
    then mk_instance (_ignore_cls self) speed None else self in
  Ok self.

Definition score (self : instance) (speed : R) (ignore_cls : raw_ignore_cls)
  : result instance :=
  let* ignore_cls := convert_ignore_cls ignore_cls in
  let self :=
    if decide (ignore_cls <> _ignore_cls self)
    then mk_instance ignore_cls (_speed self) None else self in
  let self :=
    if decide (speed <> _speed self)
    then mk_instance (_ignore_cls self) speed None else self in
  Ok self.

Definition export (self : instance) (speed : R) (ignore_cls : raw_ignore_cls)
  : result instance :=
  let* ignore_cls := convert_ignore_cls ignore_cls in
  let self :=
    if decide (ignore_cls <> _ignore_cls self)
    then mk_instance ignore_cls (_speed self) None else self in
  let self :=
    if decide (speed <> _speed self)
    then mk_instance (_ignore_cls self) speed None else self in
  Ok self.

End prologue.
End Prologue.

(** ** Stretches of history

    [stretch batch_probs ... st st' evs]: running from [st] to [st']
    appended the entries [evs], read the rows [st_i st], [st_i st + 1],
    ... one per entry, and changed the arrays by the writes of [evs]. *)
Definition stretch (label_size : nat) (speed : R) (batch_probs : list row)
    (max_loop : Z) (keep_cls : list Z) (st st' : state) (evs : list event) : Prop :=
  st_history st' = st_history st ++ evs /\
  ev_row <$> evs = seq (st_i st) (length evs) /\
  st_i st' = st_i st + length evs /\
  (st_i st <= length batch_probs -> st_i st' <= length batch_probs) /\
  st_sources st' = foldl apply_source (st_sources st) evs /\
  st_probs st' = foldl (apply_prob batch_probs) (st_probs st) evs /\
  Forall (event_sound label_size speed batch_probs max_loop keep_cls) evs.

(** What [visit] writes, at example [k]. *)
Definition writes_to (k : nat) (e : event) : Prop :=
  ev_example e = k /\ ev_exit e = true.

#[global] Instance writes_to_dec (k : nat) (e : event) : Decision (writes_to k e).
Proof. unfold writes_to. apply _. Defined.

(** ** Binary entropy, negated *)

Definition neg_entropy (p : R) : R := (p * ln p + (1 - p) * ln (1 - p))%R.

(** ** Sample batches *)

Definition half_row : row := [Fin (1 / 2); Fin (1 / 2)].
Definition sure_row : row := [Fin 1; Fin 0].

(** One device, two examples, stages 0 to 3, [speed = 0.1]. *)
Definition cfg_a : config := mk_config [] 2 2 3 [] (1 / 10).
Definition rows_a : list row := [sure_row; half_row; half_row; half_row; half_row].

(** One device, two examples, stages 0 and 1, [speed = 0]. *)
Definition cfg_zero : config := mk_config [] 2 2 1 [] 0.
Definition rows_zero : list row := [half_row; sure_row; half_row; sure_row].

(** Two devices, two examples, stages 0 to 2 with stage 0 ignored (the
    constructor's default), [speed = 0.1]. *)
Definition cfg_b : config := mk_config [0%Z; 1%Z] 2 2 2 [0%Z] (1 / 10).
Definition rows_b : list row := [half_row; half_row; half_row; half_row].

(** An entry is for an example of [unfinished], and an exit writes
    within the arrays. *)
Definition placed (unf : list nat) (size : nat) (e : event) : Prop :=
  ev_example e ∈ unf /\ (ev_exit e = true -> ev_example e < size).

(** Two devices, two examples, stages 0 and 1, [speed = 0.1]; the first
    example leaves at once, the second stays for the last pass. *)
Definition cfg_c : config := mk_config [0%Z; 1%Z] 2 2 1 [] (1 / 10).
Definition rows_c : list row := [sure_row; half_row; half_row].

(** Two devices, two examples, [speed = 0.1], both sure at once. *)
Definition rows_sure : list row := [sure_row; sure_row].


(** One device, two examples, a single label. *)
Definition cfg_one : config := mk_config [] 2 1 1 [] (1 / 10).
Definition rows_one : list row := [[Fin 1]; [Fin 1]].

(** Two entries of one chunk for the same example, the first an exit:
    they are the same entry, or the other is an earlier pass that left
    the example unfinished. *)
Definition finished_once (evs : list event) : Prop :=
  forall e e', e ∈ evs -> e' ∈ evs -> ev_example e = ev_example e' ->
    ev_exit e = true ->
    e' = e \/ (ev_loop e' < ev_loop e /\ ev_exit e' = false).

(** ** [convert] (lines 141-172)

    The helpers [_assert_legal], [_convert_X], [_convert_y] and
    [_convert_sample_weight] belong to the base classes, outside this
    file, and [np.array] to numpy: they are parameters.  [batch_size] is
    assigned before later helpers run, so the new value is returned
    beside the outcome, whether a dict or an exception. *)

Module Convert.

Inductive outcome (E A : Type) : Type :=
| Done (a : A)
| Failed (e : E).

Arguments Done {E A} a.
Arguments Failed {E A} e.

Section convert.

Variables raw tokens label weight : Type.      (* elements of X, X_tokenized, y, sample_weight *)
Variables feature label_id weight_value : Type. (* what the helpers produce *)
Variable array : Type.                          (* numpy arrays *)
Variable helper_exn : Type.                     (* what a helper may raise *)

(** An exception of [convert]: its own assertion, or a helper's. *)
Inductive failure : Type :=
| TrainingWithLabels
| Helper (e : helper_exn).

(** The first argument handed to [_convert_X]. *)
Inductive x_argument : Type :=
| FromX (X : option (list raw))
| FromTokenized (X_tokenized : list tokens).

(** The keyword argument [tokenized]: [False], or [X_tokenized] itself. *)
Inductive tokenized_flag : Type :=
| FlagFalse
| FlagList (X_tokenized : list tokens).

Variable _assert_legal :
  option (list raw) -> option (list label) -> option (list weight) ->
  option (list tokens) -> outcome helper_exn unit.
Variable _convert_X :
  x_argument -> tokenized_flag ->
  outcome helper_exn (list feature * list feature * list feature).
Variable _convert_y : list label -> outcome helper_exn (list label_id).
Variable _convert_sample_weight :
  option (list weight) -> option nat -> outcome helper_exn (list weight_value).
Variable int32_2d : list feature -> array.
Variable int32_1d : list label_id -> array.
Variable float32_1d : list weight_value -> array.

(** Python truth value of [tokenized]. *)
Definition truthy (t : tokenized_flag) : bool :=
  match t with
  | FlagFalse => false
  | FlagList [] => false
  | FlagList (_ :: _) => true
  end.

(** The block under [if X is not None or X_tokenized is not None]. *)
Definition convert_inputs (_gpu_ids : list Z) (batch_size : nat)
    (X : option (list raw)) (X_tokenized : option (list tokens))
  : nat * outcome failure (gmap string array * option nat) :=
  match X, X_tokenized with
  | None, None => (batch_size, Done (∅, None))
  | _, _ =>
      let tokenized :=
        match X, X_tokenized with
        | Some _, _ => FlagFalse
        | None, Some xt => FlagList xt
        | None, None => FlagFalse
        end in
      let argument :=
        match tokenized with
        | FlagList xt => if truthy tokenized then FromTokenized xt else FromX X
        | FlagFalse => FromX X
        end in
      match _convert_X argument tokenized with
      | Failed e => (batch_size, Failed (Helper e))
      | Done (input_ids, input_mask, segment_ids) =>
          let data :=
            <["segment_ids" := int32_2d segment_ids]>
              (<["input_mask" := int32_2d input_mask]>
                 (<["input_ids" := int32_2d input_ids]> ∅)) in
          let n_inputs := length input_ids in
          let batch_size :=
            if decide (n_inputs < batch_size)
            then max n_inputs (length _gpu_ids) else batch_size in
          (batch_size, Done (data, Some n_inputs))
      end
  end.

Definition convert (_gpu_ids : list Z) (batch_size : nat)
    (X : option (list raw)) (y : option (list label))
    (sample_weight : option (list weight)) (X_tokenized : option (list tokens))
    (is_training : bool)
  : nat * outcome failure (gmap string array) :=
  match _assert_legal X y sample_weight X_tokenized with
  | Failed e => (batch_size, Failed (Helper e))
  | Done _ =>
      if is_training && bool_decide (is_Some y)
      then (batch_size, Failed TrainingWithLabels)
      else
        match convert_inputs _gpu_ids batch_size X X_tokenized with
        | (batch_size, Failed e) => (batch_size, Failed e)
        | (batch_size, Done (data, n_inputs)) =>
            let labelled :=
              match y with
              | Some y =>
                  match _convert_y y with
                  | Failed e => Failed (Helper e)
                  | Done label_ids => Done (<["label_ids" := int32_1d label_ids]> data)
                  end
              | None => Done data
              end in
            match labelled with
            | Failed e => (batch_size, Failed e)
            | Done data =>
                if is_training || bool_decide (is_Some y) then
                  match _convert_sample_weight sample_weight n_inputs with
                  | Failed e => (batch_size, Failed (Helper e))
                  | Done weights =>
                      (batch_size, Done (<["sample_weight" := float32_1d weights]> data))
                  end
                else (batch_size, Done data)
            end
        end
  end.

End convert.
End Convert.

(** ** Binary entropy over the reals *)

Section entropy.
Local Open Scope R_scope.

Lemma ln_le_pred (x : R) : 0 < x -> ln x <= x - 1.
Proof.
  intros Hx. pose proof (exp_ineq1_le (ln x)) as H.
  rewrite exp_ln in H by assumption. lra.
Qed.


Lemma ln_quot (x y : R) : 0 < x -> 0 < y -> ln (x / y) = ln x - ln y.
Proof.
  intros Hx Hy. unfold Rdiv.
  rewrite ln_mult by (auto using Rinv_0_lt_compat).
  rewrite ln_Rinv by assumption. ring.
Qed.

Lemma ln_monotone (x y : R) : 0 < x -> x <= y -> ln x <= ln y.
Proof.
  intros Hx [Hlt | ->]; [left; apply ln_increasing; assumption | right; reflexivity].
Qed.





Lemma neg_entropy_nonpos (p : R) : 0 < p < 1 -> neg_entropy p <= 0.
Proof.
  intros Hp. unfold neg_entropy.
  pose proof (ln_le_pred p) as H1. pose proof (ln_le_pred (1 - p)) as H2.
  assert (p * ln p <= 0) by nra.
  assert ((1 - p) * ln (1 - p) <= 0) by nra.
  lra.
Qed.

Lemma neg_entropy_neg (p : R) : 0 < p < 1 -> neg_entropy p < 0.
Proof.
  intros Hp. unfold neg_entropy.
  pose proof (ln_le_pred p) as H1. pose proof (ln_le_pred (1 - p)) as H2.
  assert (p * ln p < 0) by nra.
  assert ((1 - p) * ln (1 - p) <= 0) by nra.
  lra.
Qed.

Lemma ln_half : ln (1 / 2) = - ln 2.
Proof. rewrite ln_quot by lra. rewrite ln_1. ring. Qed.

Lemma neg_entropy_half : neg_entropy (1 / 2) = - ln 2.
Proof.
  unfold neg_entropy. replace (1 - 1 / 2) with (1 / 2) by lra.
  rewrite ln_half. lra.
Qed.




End entropy.

(** ** The uncertainty scorer *)

Section scorer.
Local Open Scope R_scope.

Lemma Rltb_true (a b : R) : Rltb a b = true <-> a < b.
Proof. unfold Rltb. destruct (Rlt_dec a b); split; intros; auto; discriminate. Qed.

Lemma Rltb_false (a b : R) : Rltb a b = false <-> b <= a.
Proof.
  unfold Rltb. destruct (Rlt_dec a b); split; intros; auto; try discriminate; lra.
Qed.

Lemma tiny_bounds : 0 < tiny < 1 / 2.
Proof. unfold tiny. lra. Qed.

Lemma clamp_cases (p : R) :
  (clamp p = tiny /\ (p < tiny \/ 1 - p < tiny)) \/
  (clamp p = p /\ tiny <= p /\ tiny <= 1 - p).
Proof.
  unfold clamp. fold tiny.
  destruct (Rltb p tiny) eqn:E1; simpl.
  - left. apply Rltb_true in E1. auto.
  - destruct (Rltb (1 - p) tiny) eqn:E2.
    + left. apply Rltb_true in E2. auto.
    + right. apply Rltb_false in E1, E2. auto.
Qed.

Lemma clamp_range (p : R) : tiny <= clamp p <= 1 - tiny.
Proof.
  pose proof tiny_bounds.
  destruct (clamp_cases p) as [[-> _] | [-> ?]]; lra.
Qed.

Lemma clamp_inside (p : R) : tiny <= p <= 1 - tiny -> clamp p = p.
Proof.
  intros Hp. destruct (clamp_cases p) as [[_ ?] | [-> _]]; [lra | reflexivity].
Qed.



Lemma np_log_pos (a : R) : 0 < a -> np_log (Fin a) = Fin (ln a).
Proof. intros Ha. simpl. apply Rltb_true in Ha. rewrite Ha. reflexivity. Qed.

Lemma np_div_fin (a b : R) : b <> 0 -> np_div (Fin a) (Fin b) = Fin (a / b).
Proof. intros Hb. simpl. destruct (decide (b = 0)); [contradiction | reflexivity]. Qed.

Lemma np_div_zero_neg (a : R) : a < 0 -> np_div (Fin a) (Fin 0) = NInf.
Proof.
  intros Ha. simpl. destruct (decide (0 = 0)); [| congruence].
  unfold signed_inf.
  assert (H1 : Rltb 0 a = false) by (apply Rltb_false; lra).
  assert (H2 : Rltb a 0 = true) by (apply Rltb_true; lra).
  rewrite H1, H2. reflexivity.
Qed.

(** The numerator of [_uncertainty] on a clamped, finite probability. *)
Lemma numerator_fin (q : R) :
  0 < q < 1 ->
  np_add (np_mul (Fin q) (np_log (Fin q)))
    (np_mul (np_sub (Fin 1) (Fin q)) (np_log (np_sub (Fin 1) (Fin q))))
  = Fin (neg_entropy q).
Proof.
  intros Hq. rewrite np_log_pos by lra.
  change (np_sub (Fin 1) (Fin q)) with (Fin (1 - q)).
  rewrite np_log_pos by lra. reflexivity.
Qed.

Lemma clamp_step (p : R) :
  (if np_lt (Fin p) (Fin tiny) || np_lt (np_sub (Fin 1) (Fin p)) (Fin tiny)
   then Fin tiny else Fin p) = Fin (clamp p).
Proof.
  unfold clamp. fold tiny. change (np_sub (Fin 1) (Fin p)) with (Fin (1 - p)).
  simpl. destruct (Rltb p tiny || Rltb (1 - p) tiny); reflexivity.
Qed.

(** On a finite probability the scorer divides the negated entropy of
    the clamped probability by [log(1 / label_size)]. *)
Lemma uncertainty_fin (n : nat) (p : R) :
  _uncertainty (S n) (Fin p)
  = Ok (np_div (Fin (neg_entropy (clamp p))) (np_log (Fin (1 / INR (S n))))).
Proof.
  unfold _uncertainty. rewrite clamp_step.
  pose proof (clamp_range p). pose proof tiny_bounds.
  rewrite numerator_fin by lra. reflexivity.
Qed.

Lemma divisor_neg (label_size : nat) :
  (2 <= label_size)%nat -> ln (1 / INR label_size) < 0.
Proof.
  intros Hl. apply le_INR in Hl. simpl in Hl.
  rewrite ln_quot by lra. rewrite ln_1.
  assert (0 < ln (INR label_size)); [| lra].
  rewrite <- ln_1. apply ln_increasing; lra.
Qed.

Lemma divisor_le (label_size : nat) :
  (2 <= label_size)%nat -> ln (1 / INR label_size) <= - ln 2.
Proof.
  intros Hl. apply le_INR in Hl. simpl in Hl.
  rewrite ln_quot by lra. rewrite ln_1.
  assert (ln 2 <= ln (INR label_size)); [| lra].
  apply ln_monotone; lra.
Qed.

Lemma uncertainty_fin_formula (label_size : nat) (p : R) :
  (2 <= label_size)%nat ->
  _uncertainty label_size (Fin p) = Ok (Fin (uncertainty_formula label_size p)).
Proof.
  intros Hl. destruct label_size as [|n]; [lia |].
  rewrite uncertainty_fin.
  pose proof (divisor_neg (S n) Hl) as Hd.
  assert (Hpos : 0 < 1 / INR (S n)).
  { apply Rdiv_lt_0_compat; [lra | apply lt_0_INR; lia]. }
  rewrite np_log_pos by assumption.
  rewrite np_div_fin by lra. reflexivity.
Qed.

Lemma formula_nonneg (label_size : nat) (p : R) :
  (2 <= label_size)%nat -> 0 <= uncertainty_formula label_size p.
Proof.
  intros Hl. pose proof (divisor_neg label_size Hl) as Hd.
  pose proof (clamp_range p). pose proof tiny_bounds.
  assert (Hn : neg_entropy (clamp p) <= 0) by (apply neg_entropy_nonpos; lra).
  unfold uncertainty_formula. fold (neg_entropy (clamp p)).
  unfold Rdiv. apply Rinv_lt_0_compat in Hd. nra.
Qed.










End scorer.

Section scorer_claims.
Local Open Scope R_scope.

Lemma uncertainty_infinite (label_size : nat) (p : npfloat) :
  p = PInf \/ p = NInf ->
  _uncertainty label_size p = _uncertainty label_size (Fin tiny).
Proof.
  pose proof tiny_bounds as Ht.
  assert (Hc : clamp tiny = tiny) by (apply clamp_inside; lra).
  assert (Hs : (if np_lt (Fin tiny) (Fin tiny)
                     || np_lt (np_sub (Fin 1) (Fin tiny)) (Fin tiny)
                then Fin tiny else Fin tiny) = Fin tiny)
    by (destruct (np_lt (Fin tiny) (Fin tiny)
                  || np_lt (np_sub (Fin 1) (Fin tiny)) (Fin tiny)); reflexivity).
  intros [-> | ->]; unfold _uncertainty; rewrite Hs; reflexivity.
Qed.

Lemma uncertainty_nan (n : nat) : _uncertainty (S n) NaN = Ok NaN.
Proof. reflexivity. Qed.

(** With at least two labels the score is never below zero, whatever
    the probability handed in. *)
Lemma uncertainty_not_below_zero (label_size : nat) (p : npfloat) :
  (2 <= label_size)%nat ->
  exists u, _uncertainty label_size p = Ok u /\ np_lt u (Fin 0) = false.
Proof.
  intros Hl.
  assert (Hfin : forall x, exists u,
             _uncertainty label_size (Fin x) = Ok u /\ np_lt u (Fin 0) = false).
  { intros x. exists (Fin (uncertainty_formula label_size x)). split.
    - apply uncertainty_fin_formula. assumption.
    - simpl. apply Rltb_false. apply formula_nonneg. assumption. }
  destruct p as [x | | |].
  - apply Hfin.
  - rewrite uncertainty_infinite by auto. apply Hfin.
  - rewrite uncertainty_infinite by auto. apply Hfin.
  - destruct label_size as [|n]; [lia |]. exists NaN. split; reflexivity.
Qed.

Lemma divisor_one_label : uncertainty_divisor 1 = Ok (Fin 0).
Proof.
  unfold uncertainty_divisor, py_truediv, bind.
  rewrite np_log_pos by (simpl; lra).
  do 2 f_equal. simpl. replace (1 / 1) with 1 by lra. apply ln_1.
Qed.

Lemma one_label_fin (p : R) : _uncertainty 1 (Fin p) = Ok NInf.
Proof.
  rewrite uncertainty_fin.
  rewrite np_log_pos by (simpl; lra).
  replace (ln (1 / INR 1)) with 0
    by (simpl; replace (1 / 1) with 1 by lra; symmetry; apply ln_1).
  pose proof (clamp_range p). pose proof tiny_bounds.
  rewrite np_div_zero_neg; [reflexivity |].
  apply neg_entropy_neg. lra.
Qed.

(** C4. [_uncertainty] computes the formula of the specification: the
    probability is replaced by [1e-20] when it or its complement is
    below [1e-20], and the result is
    [(p*log(p) + (1-p)*log(1-p)) / log(1/label_size)].  It is a function
    of [label_size] and the probability alone.  Stated where the formula
    denotes a real number: on finite probabilities and with at least two
    labels. *)
Theorem uncertainty_is_formula (label_size : nat) (p : R) :
  (2 <= label_size)%nat ->
  _uncertainty label_size (Fin p) = Ok (Fin (uncertainty_formula label_size p)).
Proof. apply uncertainty_fin_formula. Qed.

Lemma uncertainty_is_formula_witness :
  (2 <= 3)%nat /\
  _uncertainty 3 (Fin (1 / 4)) = Ok (Fin (uncertainty_formula 3 (1 / 4))).
Proof.
  split; [lia |]. apply (uncertainty_is_formula 3 (1 / 4)). lia.
Defined.



(** C6, as the code has it.  With one label the divisor
    [log(1/label_size)] is zero and nothing guards the division: the
    quotient of the negative numerator by zero is [-inf] for every
    probability that is not [nan] (and [nan] for [nan]), which is below
    every threshold.  From two labels on the divisor is negative. *)
Theorem uncertainty_one_label :
  uncertainty_divisor 1 = Ok (Fin 0) /\
  (forall p, _uncertainty 1 p = Ok (match p with NaN => NaN | _ => NInf end)) /\
  (forall speed, np_lt NInf (Fin speed) = true) /\
  (forall n, exists d, uncertainty_divisor (S (S n)) = Ok (Fin d) /\ d < 0).
Proof.
  split; [apply divisor_one_label |].
  split.
  { intros [x | | |].
    - apply one_label_fin.
    - rewrite uncertainty_infinite by auto. apply one_label_fin.
    - rewrite uncertainty_infinite by auto. apply one_label_fin.
    - reflexivity. }
  split; [reflexivity |].
  intros n. exists (ln (1 / INR (S (S n)))).
  assert (Hl : (2 <= S (S n))%nat) by lia.
  split; [| apply divisor_neg; assumption].
  unfold uncertainty_divisor, py_truediv, bind.
  rewrite np_log_pos; [reflexivity |].
  apply Rdiv_lt_0_compat; [simpl; lra | apply lt_0_INR; lia].
Qed.

(** C6, as claimed, fails: with one label the divisor is zero and the
    division is carried out, here on the probability [1/2]. *)
Lemma uncertainty_division_unguarded :
  uncertainty_divisor 1 = Ok (Fin 0) /\
  _uncertainty 1 (Fin (1 / 2)) = Ok NInf /\
  ~ (exists h : R, _uncertainty 1 (Fin (1 / 2)) = Ok (Fin h)).
Proof.
  split; [apply divisor_one_label |].
  split; [apply one_label_fin |].
  intros [h Hh]. rewrite one_label_fin in Hh. discriminate.
Qed.

End scorer_claims.

(** ** The scheduler, loop by loop *)

Lemma bind_ok {A B : Type} (m : result A) (f : A -> result B) (b : B) :
  bind m f = Ok b -> exists a, m = Ok a /\ f a = Ok b.
Proof. destruct m as [a | e]; simpl; [eauto | discriminate]. Qed.

Lemma for_each_app {A S : Type} (body : S -> A -> result S) (xs ys : list A) (acc : S) :
  for_each body (xs ++ ys) acc
  = bind (for_each body xs acc) (for_each body ys).
Proof.
  revert acc. induction xs as [| x xs IH]; intros acc; simpl; [reflexivity |].
  destruct (body acc x); simpl; [apply IH | reflexivity].
Qed.

Lemma getitem_ok {A : Type} (xs : list A) (k : nat) (x : A) :
  getitem xs k = Ok x <-> xs !! k = Some x.
Proof.
  unfold getitem. destruct (xs !! k); split; intros H; inversion H; reflexivity.
Qed.

Lemma setitem_ok {A : Type} (xs : list A) (k : nat) (v : A) (ys : list A) :
  setitem xs k v = Ok ys <-> k < length xs /\ ys = <[k := v]> xs.
Proof.
  unfold setitem. destruct (decide (k < length xs)); split.
  - intros H. inversion H. auto.
  - intros [_ ->]. reflexivity.
  - discriminate.
  - intros [? _]. lia.
Qed.

Lemma foldl_apply_source_length (evs : list event) (a : list Z) :
  length (foldl apply_source a evs) = length a.
Proof.
  revert a. induction evs as [| e evs IH]; intros a; simpl; [reflexivity |].
  rewrite IH. unfold apply_source. destruct (ev_exit e); [apply length_insert | reflexivity].
Qed.

Lemma foldl_apply_prob_length (bp : list row) (evs : list event) (a : list row) :
  length (foldl (apply_prob bp) a evs) = length a.
Proof.
  revert a. induction evs as [| e evs IH]; intros a; simpl; [reflexivity |].
  rewrite IH. unfold apply_prob.
  destruct (ev_exit e); [| reflexivity].
  destruct (bp !! ev_row e); [apply length_insert | reflexivity].
Qed.

Section loops.
Variables (label_size : nat) (speed : R) (batch_probs : list row).
Variables (max_loop : Z) (keep_cls : list Z).

Local Abbreviation sound := (event_sound label_size speed batch_probs max_loop keep_cls).
Local Abbreviation stretch := (stretch label_size speed batch_probs max_loop keep_cls).

Lemma stretch_nil (st : state) : stretch st st [].
Proof.
  repeat split; simpl; auto using app_nil_r.
  all: try lia.
  all: symmetry; apply app_nil_r.
Qed.

Lemma stretch_trans (st1 st2 st3 : state) (evs1 evs2 : list event) :
  stretch st1 st2 evs1 -> stretch st2 st3 evs2 -> stretch st1 st3 (evs1 ++ evs2).
Proof.
  intros (Hh1 & Hr1 & Hi1 & Hb1 & Hs1 & Hp1 & Hf1) (Hh2 & Hr2 & Hi2 & Hb2 & Hs2 & Hp2 & Hf2).
  repeat split.
  - rewrite Hh2, Hh1. symmetry. apply app_assoc.
  - rewrite fmap_app, length_app, seq_app, Hr1, Hr2, Hi1. reflexivity.
  - rewrite length_app. lia.
  - auto.
  - rewrite foldl_app, <- Hs1. assumption.
  - rewrite foldl_app, <- Hp1. assumption.
  - apply Forall_app. auto.
Qed.

Lemma visit_stretch (d loop : nat) (source : Z) (st : state) (next : list nat)
    (ex : nat) (st' : state) (next' : list nat) :
  keep_cls !! loop = Some source ->
  visit label_size speed batch_probs max_loop d loop source (st, next) ex = Ok (st', next') ->
  exists e, stretch st st' [e] /\
    ev_device e = d /\ ev_loop e = loop /\ ev_example e = ex /\
    next' = (if ev_exit e then next else next ++ [ex]).
Proof.
  intros Hk H. unfold visit in H.
  apply bind_ok in H as (r & Hr & H). apply getitem_ok in Hr.
  apply bind_ok in H as (p & Hp & H). apply getitem_ok in Hp.
  apply bind_ok in H as (u & Hu & H).
  pose proof (lookup_lt_Some _ _ _ Hr) as Hlt.
  destruct (np_lt u (Fin speed) || (Z.of_nat loop =? max_loop - 1)%Z) eqn:Hc.
  - apply bind_ok in H as (probs' & Hpr & H). apply setitem_ok in Hpr as [_ ->].
    apply bind_ok in H as (sources' & Hsr & H). apply setitem_ok in Hsr as [_ ->].
    inversion H; subst; clear H.
    exists (mk_event d loop ex (st_i st) source true). simpl.
    repeat split; simpl; try lia.
    + unfold apply_prob. simpl. rewrite Hr. reflexivity.
    + constructor; [| constructor].
      exists r, p, u. simpl. auto.
  - inversion H; subst; clear H.
    exists (mk_event d loop ex (st_i st) source false). simpl.
    repeat split; simpl; try lia.
    constructor; [| constructor].
    exists r, p, u. simpl. auto.
Qed.

Lemma inner_stretch (d loop : nat) (source : Z) (unf : list nat) (st : state)
    (next : list nat) (st' : state) (next' : list nat) :
  keep_cls !! loop = Some source ->
  for_each (visit label_size speed batch_probs max_loop d loop source) unf (st, next) = Ok (st', next') ->
  exists evs, stretch st st' evs /\
    ev_example <$> evs = unf /\
    Forall (fun e => ev_device e = d /\ ev_loop e = loop) evs /\
    next' = next ++ (ev_example <$> filter (fun e => ev_exit e <> true) evs).
Proof.
  intros Hk. revert st next.
  induction unf as [| ex unf IH]; intros st next H; simpl in H.
  - inversion H; subst. exists []. repeat split; simpl; auto using app_nil_r.
    all: try lia. all: symmetry; apply app_nil_r.
  - apply bind_ok in H as ([st1 next1] & H1 & H).
    apply (visit_stretch _ _ _ _ _ _ _ _ Hk) in H1 as (e & Hs1 & Hd & Hl & He & Hn).
    apply IH in H as (evs & Hs2 & Hex & Hdl & Hn').
    exists (e :: evs). split; [apply (stretch_trans st st1 st' [e] evs); assumption |].
    split; [rewrite fmap_cons, He, Hex; reflexivity |].
    split; [constructor; auto |].
    subst next' next1. rewrite filter_cons.
    destruct (ev_exit e) eqn:Hx.
    + rewrite decide_False by auto. reflexivity.
    + rewrite decide_True by discriminate. simpl. rewrite He, <- app_assoc. reflexivity.
Qed.

Lemma run_loop_stretch (d loop : nat) (st : state) (unf : list nat)
    (st' : state) (next : list nat) :
  run_loop label_size speed batch_probs max_loop keep_cls d (st, unf) loop = Ok (st', next) ->
  exists evs, stretch st st' evs /\
    ev_example <$> evs = unf /\
    Forall (fun e => ev_device e = d /\ ev_loop e = loop) evs /\
    next = ev_example <$> filter (fun e => ev_exit e <> true) evs.
Proof.
  intros H. unfold run_loop in H.
  apply bind_ok in H as (source & Hk & H). apply getitem_ok in Hk.
  apply (inner_stretch _ _ _ _ _ _ _ _ Hk) in H as (evs & ? & ? & ? & ?).
  exists evs. auto.
Qed.

End loops.

Section devices.
Variables (label_size : nat) (speed : R) (batch_probs : list row).
Variables (max_loop : Z) (keep_cls : list Z).

Local Abbreviation sound := (event_sound label_size speed batch_probs max_loop keep_cls).
Local Abbreviation stretch := (stretch label_size speed batch_probs max_loop keep_cls).

Lemma exited_app (evs1 evs2 : list event) :
  exited (evs1 ++ evs2) = exited evs1 ++ exited evs2.
Proof. unfold exited. rewrite filter_app, fmap_app. reflexivity. Qed.

Lemma exited_split (evs : list event) :
  ev_example <$> evs
  ≡ₚ exited evs ++ (ev_example <$> filter (fun e => ev_exit e <> true) evs).
Proof.
  unfold exited. rewrite <- fmap_app.
  apply fmap_Permutation. symmetry.
  apply (filter_app_complement (fun e => ev_exit e = true)).
Qed.

Lemma sound_last_exits (e : event) :
  sound e -> Z.of_nat (ev_loop e) = (max_loop - 1)%Z -> ev_exit e = true.
Proof.
  intros (r & p & u & _ & _ & _ & Hx & _) Hl. rewrite Hx.
  apply orb_true_iff. right. apply Z.eqb_eq. assumption.
Qed.

Lemma last_loop_empties (loop : nat) (evs : list event) :
  Forall sound evs ->
  Forall (fun e => ev_loop e = loop) evs ->
  Z.of_nat loop = (max_loop - 1)%Z ->
  filter (fun e => ev_exit e <> true) evs = [].
Proof.
  intros Hs Hl Hlast. induction evs as [| e evs IH]; [reflexivity |].
  inversion Hs; subst. inversion Hl; subst.
  rewrite filter_cons, decide_False; [auto |].
  intros Hne. apply Hne. apply sound_last_exits; [assumption | congruence].
Qed.

(** One pass of [for loop in range(max_loop)]. *)
Lemma run_loop_facts (d loop : nat) (st : state) (unf : list nat)
    (st' : state) (next : list nat) :
  run_loop label_size speed batch_probs max_loop keep_cls d (st, unf) loop
  = Ok (st', next) ->
  exists evs, stretch st st' evs /\
    ev_example <$> evs = unf /\
    Forall (fun e => ev_device e = d /\ ev_loop e = loop) evs /\
    next `sublist_of` unf /\
    unf ≡ₚ exited evs ++ next /\
    (Z.of_nat loop = (max_loop - 1)%Z -> next = []).
Proof.
  intros H. apply run_loop_stretch in H as (evs & Hs & Hex & Hdl & ->).
  exists evs. split; [assumption |]. split; [assumption |]. split; [assumption |].
  split; [| split].
  - rewrite <- Hex. apply fmap_sublist, sublist_filter.
  - rewrite <- Hex. apply exited_split.
  - intros Hlast. rewrite (last_loop_empties loop); [reflexivity | | | assumption].
    + apply Hs.
    + eapply Forall_impl; [exact Hdl |]. intros e [_ ?]. assumption.
Qed.

(** Any run of consecutive passes, as [run_device] makes them. *)
Lemma loops_facts (d : nat) (loops : list nat) (st : state) (unf : list nat)
    (st' : state) (unf' : list nat) :
  for_each (run_loop label_size speed batch_probs max_loop keep_cls d) loops (st, unf)
  = Ok (st', unf') ->
  exists evs, stretch st st' evs /\
    Forall (fun e => ev_device e = d /\ ev_loop e ∈ loops) evs /\
    unf' `sublist_of` unf /\
    unf ≡ₚ exited evs ++ unf' /\
    ((exists l, l ∈ loops /\ Z.of_nat l = (max_loop - 1)%Z) -> unf' = []).
Proof.
  revert st unf. induction loops as [| l loops IH]; intros st unf H; simpl in H.
  - inversion H; subst. exists []. split; [apply stretch_nil |].
    split; [constructor |]. split; [reflexivity |]. split; [reflexivity |].
    intros (l & Hl & _). inversion Hl.
  - apply bind_ok in H as ([st1 unf1] & H1 & H).
    apply run_loop_facts in H1 as (evs1 & Hs1 & _ & Hdl1 & Hsub1 & Hp1 & Hlast1).
    apply IH in H as (evs2 & Hs2 & Hdl2 & Hsub2 & Hp2 & Hlast2).
    exists (evs1 ++ evs2).
    split; [apply (stretch_trans _ _ _ _ _ st st1 st'); assumption |].
    split.
    { apply Forall_app. split.
      - eapply Forall_impl; [exact Hdl1 |]. intros e [? ->]. split; [assumption | left].
      - eapply Forall_impl; [exact Hdl2 |]. intros e [? ?]. split; [assumption | right; assumption]. }
    split; [etransitivity; eassumption |].
    split; [rewrite exited_app, <- app_assoc, <- Hp2; assumption |].
    intros (l' & Hl' & Hlast).
    apply elem_of_cons in Hl' as [-> | Hl'].
    + rewrite (Hlast1 Hlast) in Hsub2. apply sublist_nil_r in Hsub2. assumption.
    + apply Hlast2. eauto.
Qed.

End devices.

(** ** Reading the arrays off the history *)

Section replay.

Lemma untouched_source (evs : list event) (a : list Z) (k : nat) :
  filter (writes_to k) evs = [] -> foldl apply_source a evs !! k = a !! k.
Proof.
  revert a. induction evs as [| e evs IH]; intros a H; simpl; [reflexivity |].
  rewrite filter_cons in H. destruct (decide (writes_to k e)) as [| Hn]; [discriminate |].
  rewrite IH by assumption. unfold apply_source.
  destruct (ev_exit e) eqn:Hx; [| reflexivity].
  apply list_lookup_insert_ne. intros Heq. apply Hn. split; assumption.
Qed.

Lemma written_source (evs : list event) (a : list Z) (k : nat) (e : event) :
  filter (writes_to k) evs = [e] -> k < length a ->
  foldl apply_source a evs !! k = Some (ev_source e).
Proof.
  revert a. induction evs as [| x evs IH]; intros a H Hk; simpl; [discriminate |].
  rewrite filter_cons in H. destruct (decide (writes_to k x)) as [[Hx1 Hx2] | Hn].
  - inversion H as [[He Hnil]]. subst x. rewrite untouched_source by assumption.
    unfold apply_source. rewrite Hx2, Hx1. apply list_lookup_insert_eq. assumption.
  - apply IH; [assumption |]. unfold apply_source.
    destruct (ev_exit x); [rewrite length_insert |]; assumption.
Qed.

Lemma untouched_prob (bp : list row) (evs : list event) (a : list row) (k : nat) :
  filter (writes_to k) evs = [] -> foldl (apply_prob bp) a evs !! k = a !! k.
Proof.
  revert a. induction evs as [| e evs IH]; intros a H; simpl; [reflexivity |].
  rewrite filter_cons in H. destruct (decide (writes_to k e)) as [| Hn]; [discriminate |].
  rewrite IH by assumption. unfold apply_prob.
  destruct (ev_exit e) eqn:Hx; [| reflexivity].
  destruct (bp !! ev_row e); [| reflexivity].
  apply list_lookup_insert_ne. intros Heq. apply Hn. split; assumption.
Qed.

Lemma written_prob (bp : list row) (evs : list event) (a : list row) (k : nat)
    (e : event) (r : row) :
  filter (writes_to k) evs = [e] -> k < length a -> bp !! ev_row e = Some r ->
  foldl (apply_prob bp) a evs !! k = Some r.
Proof.
  revert a. induction evs as [| x evs IH]; intros a H Hk Hr; simpl; [discriminate |].
  rewrite filter_cons in H. destruct (decide (writes_to k x)) as [[Hx1 Hx2] | Hn].
  - inversion H as [[He Hnil]]. subst x. rewrite untouched_prob by assumption.
    unfold apply_prob. rewrite Hx2, Hr, Hx1. apply list_lookup_insert_eq. assumption.
  - apply IH; [assumption | | assumption]. unfold apply_prob.
    destruct (ev_exit x); [| assumption].
    destruct (bp !! ev_row x); [rewrite length_insert |]; assumption.
Qed.

(** An example that exited once in a history without repeated exits has
    exactly one entry that writes to it. *)
Lemma unique_exit (evs : list event) (k : nat) :
  NoDup (exited evs) -> k ∈ exited evs ->
  exists e, filter (writes_to k) evs = [e] /\ e ∈ evs.
Proof.
  unfold exited. induction evs as [| x evs IH]; intros Hnd Hin.
  - inversion Hin.
  - rewrite filter_cons in Hnd, Hin. rewrite filter_cons.
    destruct (decide (ev_exit x = true)) as [Hx | Hx].
    + rewrite fmap_cons in Hnd, Hin. apply NoDup_cons in Hnd as [Hnot Hnd].
      destruct (decide (writes_to k x)) as [[Hk _] | Hn].
      * exists x. split; [| left]. f_equal.
        destruct (filter (writes_to k) evs) as [| y ys] eqn:Hf; [reflexivity |].
        exfalso. apply Hnot. rewrite Hk.
        assert (Hy : y ∈ filter (writes_to k) evs) by (rewrite Hf; left).
        apply list_elem_of_filter in Hy as [[Hy1 Hy2] Hy3].
        apply list_elem_of_fmap. exists y. split; [auto |].
        apply list_elem_of_filter. auto.
      * apply elem_of_cons in Hin as [Hk | Hin].
        { exfalso. apply Hn. split; auto. }
        destruct (IH Hnd Hin) as (e & He & Hin'). exists e. split; [assumption | right; assumption].
    + destruct (decide (writes_to k x)) as [[_ Hk] | Hn]; [contradiction |].
      destruct (IH Hnd Hin) as (e & He & Hin'). exists e. split; [assumption | right; assumption].
Qed.

End replay.

(** ** The configuration *)

Section configuration.
Variable self : config.

Lemma ignore_cls_short :
  NoDup (_ignore_cls self) ->
  (forall c, c ∈ _ignore_cls self -> (0 <= c < Z.of_nat (num_hidden_layers self))%Z) ->
  length (_ignore_cls self) <= num_hidden_layers self.
Proof.
  intros Hnd Hr.
  assert (Hs : _ignore_cls self ⊆+ seqZ 0 (Z.of_nat (num_hidden_layers self))).
  { apply NoDup_submseteq; [assumption |]. intros c Hc. apply elem_of_seqZ.
    specialize (Hr c Hc). lia. }
  apply submseteq_length in Hs. rewrite length_seqZ in Hs. lia.
Qed.

Lemma max_loop_positive :
  NoDup (_ignore_cls self) ->
  (forall c, c ∈ _ignore_cls self -> (0 <= c < Z.of_nat (num_hidden_layers self))%Z) ->
  (1 <= max_loop self)%Z.
Proof.
  intros Hnd Hr. pose proof (ignore_cls_short Hnd Hr). unfold max_loop. lia.
Qed.

Lemma filter_complement_length {A : Type} (P : A -> Prop) `{forall x, Decision (P x)}
    (l : list A) :
  length (filter P l) + length (filter (fun x => ~ P x) l) = length l.
Proof.
  rewrite <- length_app. apply Permutation_length. apply filter_app_complement.
Qed.

Lemma keep_cls_length :
  NoDup (_ignore_cls self) ->
  (forall c, c ∈ _ignore_cls self -> (0 <= c < Z.of_nat (num_hidden_layers self))%Z) ->
  Z.of_nat (length (keep_cls self)) = max_loop self.
Proof.
  intros Hnd Hr. unfold keep_cls, max_loop.
  set (stages := seqZ 0 (Z.of_nat (num_hidden_layers self) + 1)).
  assert (Hperm : filter (fun c => c ∈ _ignore_cls self) stages ≡ₚ _ignore_cls self).
  { apply NoDup_Permutation; [apply NoDup_filter, NoDup_seqZ | assumption |].
    intros c. rewrite list_elem_of_filter. split; [tauto |].
    intros Hc. split; [assumption |]. apply elem_of_seqZ. specialize (Hr c Hc). lia. }
  pose proof (filter_complement_length (fun c => c ∈ _ignore_cls self) stages) as Hlen.
  rewrite (Permutation_length Hperm) in Hlen.
  unfold stages in Hlen at 2. rewrite length_seqZ in Hlen.
  change (filter (fun c => c ∉ _ignore_cls self) stages)
    with (filter (fun c => ~ c ∈ _ignore_cls self) stages).
  lia.
Qed.

End configuration.

(** ** Exceptions other than the closing assertion *)

Lemma bind_no_assert {A B : Type} (m : result A) (f : A -> result B) :
  m <> Raise AssertionError -> (forall a, f a <> Raise AssertionError) ->
  bind m f <> Raise AssertionError.
Proof.
  intros Hm Hf. destruct m as [a | e]; simpl; [apply Hf |].
  intros H. apply Hm. inversion H. reflexivity.
Qed.

Lemma for_each_no_assert {A S : Type} (body : S -> A -> result S) (xs : list A) (acc : S) :
  (forall a x, body a x <> Raise AssertionError) ->
  for_each body xs acc <> Raise AssertionError.
Proof.
  intros Hb. revert acc. induction xs as [| x xs IH]; intros acc; simpl; [discriminate |].
  apply bind_no_assert; auto.
Qed.

Lemma getitem_no_assert {A : Type} (xs : list A) (k : nat) :
  getitem xs k <> Raise AssertionError.
Proof. unfold getitem. destruct (xs !! k); discriminate. Qed.

Lemma setitem_no_assert {A : Type} (xs : list A) (k : nat) (v : A) :
  setitem xs k v <> Raise AssertionError.
Proof. unfold setitem. destruct (decide (k < length xs)); discriminate. Qed.

Lemma uncertainty_no_assert (label_size : nat) (p : npfloat) :
  _uncertainty label_size p <> Raise AssertionError.
Proof. unfold _uncertainty, py_truediv. destruct label_size; discriminate. Qed.

Lemma visit_no_assert (label_size : nat) (speed : R) (batch_probs : list row)
    (max_loop : Z) (d loop : nat) (source : Z) (acc : state * list nat) (ex : nat) :
  visit label_size speed batch_probs max_loop d loop source acc ex
  <> Raise AssertionError.
Proof.
  unfold visit. destruct acc as [st next].
  apply bind_no_assert; [apply getitem_no_assert | intros r].
  apply bind_no_assert; [apply getitem_no_assert | intros p].
  apply bind_no_assert; [apply uncertainty_no_assert | intros u].
  destruct (np_lt u (Fin speed) || (Z.of_nat loop =? max_loop - 1)%Z); [| discriminate].
  apply bind_no_assert; [apply setitem_no_assert | intros probs'].
  apply bind_no_assert; [apply setitem_no_assert | intros sources'].
  discriminate.
Qed.

Lemma permutate_loops_no_assert (self : config) (batch_probs : list row) :
  permutate_loops self batch_probs <> Raise AssertionError.
Proof.
  unfold permutate_loops. apply for_each_no_assert. intros st d.
  apply bind_no_assert; [| intros [st' unf]; discriminate].
  unfold run_device. apply for_each_no_assert. intros [st1 unf] loop.
  unfold run_loop. apply bind_no_assert; [apply getitem_no_assert | intros source].
  apply for_each_no_assert. intros acc ex. apply visit_no_assert.
Qed.

(** ** The whole of [_permutate] *)

Section whole.
Variables (self : config) (batch_probs : list row).

Local Abbreviation stretch :=
  (stretch (label_size self) (_speed self) batch_probs (max_loop self) (keep_cls self)).

Lemma device_fold_stretch (devices : list nat) (st st' : state) :
  for_each
    (fun st d =>
       let* (st', _) :=
         run_device (label_size self) (_speed self) batch_probs
           (max_loop self) (keep_cls self) (d_batch_size self) st d in
       Ok st')
    devices st = Ok st' ->
  exists evs, stretch st st' evs.
Proof.
  revert st. induction devices as [| d devices IH]; intros st H; simpl in H.
  - inversion H; subst. exists []. apply stretch_nil.
  - apply bind_ok in H as (st1 & H1 & H).
    apply bind_ok in H1 as ([st1' unf'] & H1 & Heq). inversion Heq; subst; clear Heq.
    apply loops_facts in H1 as (evs1 & Hs1 & _).
    apply IH in H as (evs2 & Hs2).
    exists (evs1 ++ evs2). apply (stretch_trans _ _ _ _ _ st st1 st'); assumption.
Qed.

Lemma permutate_loops_stretch (st : state) :
  permutate_loops self batch_probs = Ok st ->
  stretch (initial_state self) st (st_history st).
Proof.
  intros H. apply device_fold_stretch in H as (evs & Hs).
  assert (Hh : st_history st = evs) by (destruct Hs as (-> & _); reflexivity).
  rewrite Hh. assumption.
Qed.

Lemma permutate_ok (out : list row * list Z) :
  _permutate self batch_probs = Ok out <->
  exists st, permutate_loops self batch_probs = Ok st /\
    st_i st = length batch_probs /\ out = (st_probs st, st_sources st).
Proof.
  unfold _permutate. split.
  - intros H. apply bind_ok in H as (st & Hst & H). exists st.
    destruct (decide (st_i st = length batch_probs)); [| discriminate].
    inversion H. auto.
  - intros (st & -> & Hi & ->). simpl. rewrite decide_True by assumption. reflexivity.
Qed.

Lemma permutate_assertion :
  _permutate self batch_probs = Raise AssertionError <->
  exists st, permutate_loops self batch_probs = Ok st /\ st_i st <> length batch_probs.
Proof.
  unfold _permutate. split.
  - intros H. destruct (permutate_loops self batch_probs) as [st | e] eqn:Hst; simpl in H.
    + exists st. split; [reflexivity |]. revert H.
      destruct (decide (st_i st = length batch_probs)); [discriminate | auto].
    + exfalso. inversion H; subst.
      apply (permutate_loops_no_assert self batch_probs). assumption.
  - intros (st & -> & Hi). simpl. rewrite decide_False by assumption. reflexivity.
Qed.

End whole.

(** ** One device *)

Section one_device.
Variables (self : config) (batch_probs : list row).

Local Abbreviation sound :=
  (event_sound (label_size self) (_speed self) batch_probs (max_loop self) (keep_cls self)).
Local Abbreviation stretch :=
  (stretch (label_size self) (_speed self) batch_probs (max_loop self) (keep_cls self)).

Lemma n_device_one : length (_gpu_ids self) <= 1 -> n_device self = 1.
Proof. unfold n_device. lia. Qed.

Lemma initial_unfinished_0 (n : nat) : initial_unfinished n 0 = seq 0 n.
Proof.
  unfold initial_unfinished. rewrite <- (map_id (seq 0 n)) at 2.
  apply map_ext. intros k. lia.
Qed.

Lemma single_device_run (st : state) :
  length (_gpu_ids self) <= 1 ->
  NoDup (_ignore_cls self) ->
  (forall c, c ∈ _ignore_cls self -> (0 <= c < Z.of_nat (num_hidden_layers self))%Z) ->
  permutate_loops self batch_probs = Ok st ->
  run_device (label_size self) (_speed self) batch_probs (max_loop self)
    (keep_cls self) (d_batch_size self) (initial_state self) 0 = Ok (st, []) /\
  stretch (initial_state self) st (st_history st) /\
  seq 0 (batch_size self) ≡ₚ exited (st_history st).
Proof.
  intros one_gpu distinct in_range H.
  pose proof (permutate_loops_stretch self batch_probs st H) as Hs.
  unfold permutate_loops in H. rewrite n_device_one in H by assumption. simpl in H.
  apply bind_ok in H as (st1 & H & Heq). inversion Heq; subst st1; clear Heq.
  apply bind_ok in H as ([st1 unf] & H & Heq). inversion Heq; subst st1; clear Heq.
  pose proof H as Hrun. unfold run_device in H.
  apply loops_facts in H as (evs & Hs' & _ & _ & Hperm & Hlast).
  assert (Hev : st_history st = evs) by (destruct Hs' as (-> & _); reflexivity).
  assert (Hunf : unf = []).
  { apply Hlast. exists (Z.to_nat (max_loop self - 1)).
    pose proof (max_loop_positive self distinct in_range).
    split; [apply elem_of_seq |]; lia. }
  subst unf. split; [assumption |]. split; [assumption |].
  rewrite Hev. rewrite app_nil_r in Hperm. rewrite <- Hperm.
  simpl. rewrite initial_unfinished_0.
  unfold d_batch_size. rewrite n_device_one, Nat.div_1_r by assumption. reflexivity.
Qed.

(** Every example has exactly one history entry that writes to it, and
    the arrays hold what that entry wrote. *)
Lemma single_device_records (st : state) (k : nat) :
  length (_gpu_ids self) <= 1 ->
  NoDup (_ignore_cls self) ->
  (forall c, c ∈ _ignore_cls self -> (0 <= c < Z.of_nat (num_hidden_layers self))%Z) ->
  permutate_loops self batch_probs = Ok st ->
  k < batch_size self ->
  exists e, filter (writes_to k) (st_history st) = [e] /\
    sound e /\
    st_sources st !! k = Some (ev_source e) /\
    st_probs st !! k = batch_probs !! ev_row e.
Proof.
  intros one_gpu distinct in_range H Hk.
  apply single_device_run in H as (_ & Hs & Hperm); try assumption.
  assert (Hnd : NoDup (exited (st_history st))) by (rewrite <- Hperm; apply NoDup_seq).
  assert (Hin : k ∈ exited (st_history st)) by (rewrite <- Hperm; apply elem_of_seq; lia).
  destruct (unique_exit _ _ Hnd Hin) as (e & Hf & He).
  destruct Hs as (_ & _ & _ & _ & Hsrc & Hprb & Hall).
  rewrite Forall_forall in Hall. pose proof (Hall e He) as Hsound.
  exists e. split; [assumption |]. split; [assumption |].
  destruct Hsound as (r & p & u & Hr & _).
  split.
  - rewrite Hsrc. apply written_source; [assumption |].
    simpl. rewrite length_replicate. assumption.
  - rewrite Hprb, Hr. apply written_prob with (e := e); [assumption | | assumption].
    simpl. rewrite length_replicate. assumption.
Qed.

Lemma keep_cls_last :
  (forall c, c ∈ _ignore_cls self -> (0 <= c < Z.of_nat (num_hidden_layers self))%Z) ->
  last (keep_cls self) = Some (Z.of_nat (num_hidden_layers self)).
Proof.
  intros in_range. unfold keep_cls.
  replace (Z.of_nat (num_hidden_layers self) + 1)%Z
    with (Z.of_nat (S (num_hidden_layers self))) by lia.
  rewrite seqZ_S, filter_app. simpl.
  rewrite filter_cons, decide_True, filter_nil.
  - apply last_snoc.
  - intros Hc. apply in_range in Hc. lia.
Qed.

End one_device.

(** ** Running the scheduler on given rows *)

Section evaluation.
Local Open Scope R_scope.

Lemma formula_half : uncertainty_formula 2 (1 / 2) = 1.
Proof.
  unfold uncertainty_formula. pose proof tiny_bounds.
  rewrite clamp_inside by lra. fold (neg_entropy (1 / 2)).
  rewrite neg_entropy_half. simpl INR.
  replace (1 / (1 + 1)) with (1 / 2) by lra. rewrite ln_half.
  pose proof ln_lt_2. field. lra.
Qed.

Lemma ln_10_le : ln 10 <= 9.
Proof. pose proof (ln_le_pred 10). lra. Qed.

Lemma neg_entropy_tiny : - / 20 <= neg_entropy tiny.
Proof.
  unfold neg_entropy. pose proof tiny_bounds as Ht.
  assert (H1 : ln tiny = - (20 * ln 10)).
  { replace tiny with (/ 10 ^ 20) by (unfold tiny; lra).
    rewrite ln_Rinv by (apply pow_lt; lra).
    rewrite ln_pow by lra. simpl INR. f_equal. f_equal. lra. }
  assert (H2 : - (tiny / (1 - tiny)) <= ln (1 - tiny)).
  { pose proof (ln_le_pred (/ (1 - tiny))) as H.
    rewrite ln_Rinv in H by lra.
    assert (0 < / (1 - tiny)) by (apply Rinv_0_lt_compat; lra).
    replace (tiny / (1 - tiny)) with (/ (1 - tiny) - 1) by (field; lra). lra. }
  assert (H3 : - tiny <= (1 - tiny) * ln (1 - tiny)).
  { replace (- tiny) with ((1 - tiny) * - (tiny / (1 - tiny))) by (field; lra).
    apply Rmult_le_compat_l; lra. }
  rewrite H1. pose proof ln_10_le. unfold tiny in *. nra.
Qed.

Lemma formula_one : uncertainty_formula 2 1 < 1 / 10.
Proof.
  unfold uncertainty_formula. pose proof tiny_bounds.
  assert (Hc : clamp 1 = tiny).
  { destruct (clamp_cases 1) as [[-> _] | [_ ?]]; [reflexivity | lra]. }
  rewrite Hc. fold (neg_entropy tiny). simpl INR.
  replace (1 / (1 + 1)) with (1 / 2) by lra. rewrite ln_half.
  pose proof neg_entropy_tiny. pose proof ln_lt_2.
  assert (Hn : neg_entropy tiny <= 0) by (apply neg_entropy_nonpos; lra).
  apply Rmult_lt_reg_r with (ln 2); [lra |].
  replace (neg_entropy tiny / - ln 2 * ln 2) with (- neg_entropy tiny) by (field; lra).
  lra.
Qed.

Lemma uncertainty_half : _uncertainty 2 (Fin (1 / 2)) = Ok (Fin 1).
Proof. rewrite uncertainty_fin_formula by lia. rewrite formula_half. reflexivity. Qed.

Lemma stays_half (speed : R) (last : bool) :
  speed <= 1 -> np_lt (Fin 1) (Fin speed) || last = last.
Proof.
  intros Hs. simpl. replace (Rltb 1 speed) with false; [reflexivity |].
  symmetry. apply Rltb_false. assumption.
Qed.

Lemma leaves_one (last : bool) :
  np_lt (Fin (uncertainty_formula 2 1)) (Fin (1 / 10)) || last = true.
Proof.
  simpl. replace (Rltb (uncertainty_formula 2 1) (1 / 10)) with true; [reflexivity |].
  symmetry. apply Rltb_true. apply formula_one.
Qed.

End evaluation.

Lemma visit_run (label_size : nat) (speed : R) (batch_probs : list row)
    (max_loop : Z) (d loop : nat) (source : Z) (st : state) (next : list nat)
    (ex : nat) (r : row) (p u : npfloat) (b : bool) :
  batch_probs !! st_i st = Some r ->
  (r : list npfloat) !! 0 = Some p ->
  _uncertainty label_size p = Ok u ->
  np_lt u (Fin speed) || (Z.of_nat loop =? max_loop - 1)%Z = b ->
  visit label_size speed batch_probs max_loop d loop source (st, next) ex
  = if b then
      let* probs := setitem (st_probs st) ex r in
      let* sources := setitem (st_sources st) ex source in
      Ok (mk_state probs sources (S (st_i st))
            (st_history st ++ [mk_event d loop ex (st_i st) source true]),
          next)
    else
      Ok (mk_state (st_probs st) (st_sources st) (S (st_i st))
            (st_history st ++ [mk_event d loop ex (st_i st) source false]),
          next ++ [ex]).
Proof.
  intros Hr Hp Hu Hb. unfold visit, getitem, bind.
  rewrite Hr. cbn beta iota. rewrite Hp. cbn beta iota.
  rewrite Hu. cbn beta iota. rewrite Hb. reflexivity.
Qed.

#[local] Arguments visit : simpl never.

Ltac visit_with Hu Hb :=
  erewrite visit_run; [| reflexivity | reflexivity | apply Hu | apply Hb]; simpl.

Lemma uncertainty_one :
  _uncertainty 2 (Fin 1) = Ok (Fin (uncertainty_formula 2 1)).
Proof. apply uncertainty_fin_formula. lia. Qed.

Lemma tenth_le_1 : (1 / 10 <= 1)%R.
Proof. lra. Qed.

(** The scenario of the specification, with a fully confident first
    example: two labels, no stage ignored, three layers, [speed = 0.1].
    Example 0 leaves at stage 0, example 1 at the last stage. *)
Lemma loops_a :
  exists st, permutate_loops cfg_a rows_a = Ok st /\
    st_probs st = [sure_row; half_row] /\ st_sources st = [0%Z; 3%Z] /\
    st_i st = 5 /\ length (st_history st) = 5.
Proof.
  unfold permutate_loops, run_device, run_loop, cfg_a, max_loop, keep_cls. simpl.
  visit_with uncertainty_one leaves_one.
  visit_with uncertainty_half (stays_half (1 / 10) false tenth_le_1).
  visit_with uncertainty_half (stays_half (1 / 10) false tenth_le_1).
  visit_with uncertainty_half (stays_half (1 / 10) false tenth_le_1).
  visit_with uncertainty_half (stays_half (1 / 10) true tenth_le_1).
  eexists. split; [reflexivity |]. repeat split.
Qed.

Lemma scenario_a : _permutate cfg_a rows_a = Ok ([sure_row; half_row], [0%Z; 3%Z]).
Proof.
  destruct loops_a as (st & Hst & Hp & Hs & Hi & _).
  apply permutate_ok. exists st. rewrite Hp, Hs, Hi. auto.
Qed.

Lemma first_loop_a :
  run_loop 2 (1 / 10) rows_a (max_loop cfg_a) (keep_cls cfg_a) 0
    (initial_state cfg_a, [0; 1]) 0
  = Ok (mk_state [sure_row; [Fin 0; Fin 0]] [0%Z; 0%Z] 2
          [mk_event 0 0 0 0 0 true; mk_event 0 0 1 1 0 false], [1]).
Proof.
  unfold run_loop, cfg_a, max_loop, keep_cls. simpl.
  visit_with uncertainty_one leaves_one.
  visit_with uncertainty_half (stays_half (1 / 10) false tenth_le_1).
  reflexivity.
Qed.

(** With [speed = 0] nobody leaves before the last kept stage. *)
Lemma scenario_zero :
  _permutate cfg_zero rows_zero = Ok ([half_row; sure_row], [1%Z; 1%Z]).
Proof.
  apply permutate_ok.
  assert (H0 : (0 <= 1)%R) by lra.
  assert (Hu : exists h, _uncertainty 2 (Fin 1) = Ok (Fin h) /\ (0 <= h)%R).
  { exists (uncertainty_formula 2 1). split; [apply uncertainty_one |].
    apply formula_nonneg. lia. }
  destruct Hu as (h & Hu & Hh).
  assert (Hs : forall last, np_lt (Fin h) (Fin 0) || last = last).
  { intros last. simpl. replace (Rltb h 0) with false; [reflexivity |].
    symmetry. apply Rltb_false. assumption. }
  unfold permutate_loops, run_device, run_loop, cfg_zero, max_loop, keep_cls. simpl.
  visit_with uncertainty_half (stays_half 0 false H0).
  visit_with Hu (Hs false).
  visit_with uncertainty_half (stays_half 0 true H0).
  visit_with Hu (Hs true).
  eexists. split; [reflexivity |]. split; reflexivity.
Qed.

(** Two devices, one example each; the first example stays for a second
    pass. *)
Lemma first_chunk_b :
  run_device 2 (1 / 10) rows_b (max_loop cfg_b) (keep_cls cfg_b) (d_batch_size cfg_b)
    (initial_state cfg_b) 0
  = Ok (mk_state [half_row; [Fin 0; Fin 0]] [2%Z; 0%Z] 2
          [mk_event 0 0 0 0 1 false; mk_event 0 1 0 1 2 true], []).
Proof.
  unfold run_device, run_loop, cfg_b, max_loop, keep_cls. simpl.
  visit_with uncertainty_half (stays_half (1 / 10) false tenth_le_1).
  visit_with uncertainty_half (stays_half (1 / 10) true tenth_le_1).
  reflexivity.
Qed.

Lemma scenario_b : _permutate cfg_b rows_b = Raise IndexError.
Proof.
  unfold _permutate, permutate_loops.
  change (seq 0 (n_device cfg_b)) with [0; 1].
  cbn [for_each]. pose proof first_chunk_b as H.
  change 2 with (label_size cfg_b) in H at 1.
  change (1 / 10)%R with (_speed cfg_b) in H at 1.
  rewrite H. clear H. cbn [bind].
  unfold run_device, run_loop, cfg_b, max_loop, keep_cls. simpl.
  visit_with uncertainty_half (stays_half (1 / 10) false tenth_le_1).
  visit_with uncertainty_half (stays_half (1 / 10) true tenth_le_1).
  reflexivity.
Qed.

(** ** The scheduler claims *)

(** C1. With one device and [_ignore_cls] made of distinct stages below
    the final one, whenever [_permutate] returns, every example of the
    batch has exactly one history entry that writes its result, the
    source written is an element of [keep_cls], the returned arrays hold
    at that example the source and the row of that entry, and
    [unfinished] is empty after the last loop.  No assumption on
    [_speed] is needed. *)
Theorem every_example_one_record (self : config) (batch_probs : list row)
    (probs : list row) (sources : list Z) :
  length (_gpu_ids self) <= 1 ->
  NoDup (_ignore_cls self) ->
  (forall c, c ∈ _ignore_cls self -> (0 <= c < Z.of_nat (num_hidden_layers self))%Z) ->
  _permutate self batch_probs = Ok (probs, sources) ->
  exists st,
    run_device (label_size self) (_speed self) batch_probs (max_loop self)
      (keep_cls self) (d_batch_size self) (initial_state self) 0 = Ok (st, []) /\
    probs = st_probs st /\ sources = st_sources st /\
    forall k, k < batch_size self ->
      exists e, filter (writes_to k) (st_history st) = [e] /\
        ev_source e ∈ keep_cls self /\
        keep_cls self !! ev_loop e = Some (ev_source e) /\
        sources !! k = Some (ev_source e) /\
        probs !! k = batch_probs !! ev_row e.
Proof.
  intros Hg Hnd Hr H. apply permutate_ok in H as (st & Hst & _ & Hout).
  inversion Hout; subst probs sources; clear Hout. exists st.
  destruct (single_device_run self batch_probs st Hg Hnd Hr Hst) as (Hrun & _ & _).
  split; [assumption |]. split; [reflexivity |]. split; [reflexivity |].
  intros k Hk.
  destruct (single_device_records self batch_probs st k Hg Hnd Hr Hst Hk)
    as (e & Hf & Hsound & Hs & Hp).
  exists e. split; [assumption |].
  destruct Hsound as (_ & _ & _ & _ & _ & _ & _ & Hkeep).
  split; [eapply list_elem_of_lookup_2; eassumption |]. auto.
Qed.

Lemma every_example_one_record_witness :
  exists st,
    run_device (label_size cfg_a) (_speed cfg_a) rows_a (max_loop cfg_a)
      (keep_cls cfg_a) (d_batch_size cfg_a) (initial_state cfg_a) 0 = Ok (st, []) /\
    [sure_row; half_row] = st_probs st /\ [0%Z; 3%Z] = st_sources st /\
    forall k, k < batch_size cfg_a ->
      exists e, filter (writes_to k) (st_history st) = [e] /\
        ev_source e ∈ keep_cls cfg_a /\
        keep_cls cfg_a !! ev_loop e = Some (ev_source e) /\
        [0%Z; 3%Z] !! k = Some (ev_source e) /\
        [sure_row; half_row] !! k = rows_a !! ev_row e.
Proof.
  apply (every_example_one_record cfg_a rows_a).
  - simpl. lia.
  - simpl. constructor.
  - simpl. intros c Hc. inversion Hc.
  - apply scenario_a.
Defined.

(** C2. Each pass of the loop over stages reads one row per unfinished
    example, in the order of [unfinished], at consecutive positions
    starting from the counter [i]; over the whole call the rows are read
    in the order of [batch_probs], each once; [_permutate] returns only
    when every row has been read; and it raises [AssertionError] exactly
    when all loops complete with rows left unread. *)
Theorem rows_consumed_in_order (self : config) (batch_probs : list row) :
  (forall d loop st unf st' next,
     run_loop (label_size self) (_speed self) batch_probs (max_loop self)
       (keep_cls self) d (st, unf) loop = Ok (st', next) ->
     st_i st' = st_i st + length unf /\
     exists evs, st_history st' = st_history st ++ evs /\
       ev_example <$> evs = unf /\
       ev_row <$> evs = seq (st_i st) (length unf)) /\
  (forall st, permutate_loops self batch_probs = Ok st ->
     ev_row <$> st_history st = seq 0 (st_i st) /\
     st_i st <= length batch_probs) /\
  (forall out, _permutate self batch_probs = Ok out ->
     exists st, permutate_loops self batch_probs = Ok st /\
       out = (st_probs st, st_sources st) /\
       st_i st = length batch_probs /\
       ev_row <$> st_history st = seq 0 (length batch_probs)) /\
  (_permutate self batch_probs = Raise AssertionError <->
   exists st, permutate_loops self batch_probs = Ok st /\
     st_i st < length batch_probs).
Proof.
  assert (Hloops : forall st, permutate_loops self batch_probs = Ok st ->
            ev_row <$> st_history st = seq 0 (st_i st) /\
            st_i st <= length batch_probs).
  { intros st H. apply permutate_loops_stretch in H.
    destruct H as (_ & Hrow & Hi & Hb & _). simpl in *.
    split; [rewrite Hi; exact Hrow | apply Hb; lia]. }
  split; [| split; [exact Hloops | split]].
  - intros d loop st unf st' next H.
    apply run_loop_stretch in H as (evs & Hs & Hex & _).
    destruct Hs as (Hh & Hrow & Hi & _).
    assert (Hlen : length evs = length unf) by (rewrite <- Hex, length_fmap; reflexivity).
    split; [lia |]. exists evs. rewrite <- Hlen. auto.
  - intros out H. apply permutate_ok in H as (st & Hst & Hi & ->).
    exists st. destruct (Hloops st Hst) as [Hrow _]. rewrite <- Hi. auto.
  - rewrite permutate_assertion. split; intros (st & Hst & Hi); exists st.
    + destruct (Hloops st Hst) as [_ Hle]. split; [assumption | lia].
    + split; [assumption | lia].
Qed.

Lemma rows_consumed_in_order_witness :
  exists st, permutate_loops cfg_a rows_a = Ok st /\
    ([sure_row; half_row], [0%Z; 3%Z]) = (st_probs st, st_sources st) /\
    st_i st = length rows_a /\
    ev_row <$> st_history st = seq 0 (length rows_a).
Proof.
  destruct (rows_consumed_in_order cfg_a rows_a) as (_ & _ & H & _).
  apply (H ([sure_row; half_row], [0%Z; 3%Z])). apply scenario_a.
Defined.

(** C3, on the code.  The second chunk starts its [unfinished] list at
    the number of rows read so far, not at [d * (batch_size //
    n_device)]: with two devices, one example each, and a first example
    that stays for a second pass, the second chunk starts at index 2
    instead of 1 and the write to [probs[2]] raises [IndexError]. *)
Theorem second_chunk_misplaced :
  n_device cfg_b = 2 /\ d_batch_size cfg_b = 1 /\
  (exists st1,
     run_device (label_size cfg_b) (_speed cfg_b) rows_b (max_loop cfg_b)
       (keep_cls cfg_b) (d_batch_size cfg_b) (initial_state cfg_b) 0 = Ok (st1, []) /\
     initial_unfinished (d_batch_size cfg_b) (st_i st1) = [2]) /\
  _permutate cfg_b rows_b = Raise IndexError.
Proof.
  split; [reflexivity |]. split; [reflexivity |]. split; [| apply scenario_b].
  eexists. split; [apply first_chunk_b | reflexivity].
Qed.

(** C7. With [_speed = 0], at least two labels, one device and
    [_ignore_cls] made of distinct stages below the final one, the score
    of a row is never below 0, and whenever [_permutate] returns every
    example has the source [keep_cls[-1]], which is the final stage. *)
Theorem zero_speed_final_stage (self : config) (batch_probs : list row)
    (probs : list row) (sources : list Z) :
  _speed self = 0%R ->
  2 <= label_size self ->
  length (_gpu_ids self) <= 1 ->
  NoDup (_ignore_cls self) ->
  (forall c, c ∈ _ignore_cls self -> (0 <= c < Z.of_nat (num_hidden_layers self))%Z) ->
  _permutate self batch_probs = Ok (probs, sources) ->
  (forall p, exists u,
     _uncertainty (label_size self) p = Ok u /\ np_lt u (Fin (_speed self)) = false) /\
  exists s, last (keep_cls self) = Some s /\
    s = Z.of_nat (num_hidden_layers self) /\
    sources = replicate (batch_size self) s.
Proof.
  intros Hspeed Hl Hg Hnd Hr H.
  split; [intros p; rewrite Hspeed; apply uncertainty_not_below_zero; assumption |].
  apply permutate_ok in H as (st & Hst & _ & Hout).
  inversion Hout; subst probs sources; clear Hout.
  exists (Z.of_nat (num_hidden_layers self)).
  pose proof (keep_cls_last self Hr) as Hlast.
  split; [assumption |]. split; [reflexivity |].
  pose proof (permutate_loops_stretch self batch_probs st Hst) as (_ & _ & _ & _ & Hsrc & _).
  assert (Hlen : length (st_sources st) = batch_size self).
  { rewrite Hsrc, foldl_apply_source_length. simpl. apply length_replicate. }
  apply list_eq. intros k.
  destruct (decide (k < batch_size self)) as [Hk | Hk].
  - rewrite lookup_replicate_2 by assumption.
    destruct (single_device_records self batch_probs st k Hg Hnd Hr Hst Hk)
      as (e & Hf & Hsound & Hs & _).
    rewrite Hs. f_equal.
    assert (Hw : writes_to k e).
    { assert (He : e ∈ filter (writes_to k) (st_history st)) by (rewrite Hf; left).
      apply list_elem_of_filter in He as [He _]. exact He. }
    destruct Hw as [_ Hexit].
    destruct Hsound as (r & p & u & _ & _ & Hu & Hx & Hkeep).
    destruct (uncertainty_not_below_zero (label_size self) p Hl) as (u' & Hu' & Hnl).
    rewrite Hu in Hu'. inversion Hu'; subst u'; clear Hu'.
    rewrite Hspeed, Hnl, Hexit in Hx. simpl in Hx. symmetry in Hx.
    apply Z.eqb_eq in Hx.
    pose proof (keep_cls_length self Hnd Hr) as Hkl.
    rewrite last_lookup in Hlast.
    replace (pred (length (keep_cls self))) with (ev_loop e) in Hlast by lia.
    congruence.
  - rewrite lookup_ge_None_2 by lia.
    symmetry. apply lookup_replicate_None. lia.
Qed.

Lemma zero_speed_final_stage_witness :
  (forall p, exists u,
     _uncertainty (label_size cfg_zero) p = Ok u /\
     np_lt u (Fin (_speed cfg_zero)) = false) /\
  exists s, last (keep_cls cfg_zero) = Some s /\
    s = Z.of_nat (num_hidden_layers cfg_zero) /\
    [1%Z; 1%Z] = replicate (batch_size cfg_zero) s.
Proof.
  apply (zero_speed_final_stage cfg_zero rows_zero [half_row; sure_row]).
  - reflexivity.
  - simpl. lia.
  - simpl. lia.
  - simpl. constructor.
  - simpl. intros c Hc. inversion Hc.
  - apply scenario_zero.
Defined.

(** C8. Within a device chunk the [unfinished] list after a pass is a
    subsequence of the list before it, and so is the list after any
    number of consecutive passes: the survivors keep their order. *)
Theorem unfinished_order_preserved (label_size : nat) (speed : R)
    (batch_probs : list row) (max_loop : Z) (keep_cls : list Z) (d : nat) :
  (forall loop st unf st' next,
     run_loop label_size speed batch_probs max_loop keep_cls d (st, unf) loop
     = Ok (st', next) ->
     next `sublist_of` unf) /\
  (forall loops st unf st' unf',
     for_each (run_loop label_size speed batch_probs max_loop keep_cls d)
       loops (st, unf) = Ok (st', unf') ->
     unf' `sublist_of` unf) /\
  (forall d_batch_size st st' unf',
     run_device label_size speed batch_probs max_loop keep_cls d_batch_size st d
     = Ok (st', unf') ->
     unf' `sublist_of` initial_unfinished d_batch_size (st_i st)).
Proof.
  split; [| split].
  - intros loop st unf st' next H.
    apply run_loop_facts in H as (evs & _ & _ & _ & Hsub & _). assumption.
  - intros loops st unf st' unf' H.
    apply loops_facts in H as (evs & _ & _ & Hsub & _). assumption.
  - intros n st st' unf' H. unfold run_device in H.
    apply loops_facts in H as (evs & _ & _ & Hsub & _). assumption.
Qed.

Lemma unfinished_order_preserved_witness : [1] `sublist_of` [0; 1].
Proof.
  destruct (unfinished_order_preserved 2 (1 / 10) rows_a (max_loop cfg_a)
              (keep_cls cfg_a) 0) as (H & _ & _).
  eapply H. apply first_loop_a.
Defined.

(** C9. [_permutate] is a function of [batch_probs] and of the
    configuration values [_speed], [_ignore_cls], [label_size],
    [batch_size], the number of devices and [num_hidden_layers]: two
    calls that agree on these return the same arrays or raise the same
    exception. *)
Theorem permutate_deterministic (self1 self2 : config) (batch_probs : list row) :
  _speed self1 = _speed self2 ->
  _ignore_cls self1 = _ignore_cls self2 ->
  label_size self1 = label_size self2 ->
  batch_size self1 = batch_size self2 ->
  n_device self1 = n_device self2 ->
  num_hidden_layers self1 = num_hidden_layers self2 ->
  _permutate self1 batch_probs = _permutate self2 batch_probs.
Proof.
  intros Hs Hi Hl Hb Hn Hh.
  unfold _permutate, permutate_loops, d_batch_size, max_loop, keep_cls, initial_state.
  rewrite Hs, Hi, Hl, Hb, Hn, Hh. reflexivity.
Qed.

Lemma permutate_deterministic_witness :
  _permutate cfg_a rows_a = _permutate (mk_config [7%Z] 2 2 3 [] (1 / 10)) rows_a.
Proof.
  apply (permutate_deterministic cfg_a (mk_config [7%Z] 2 2 3 [] (1 / 10)) rows_a);
    reflexivity.
Defined.

(** ** The prologue of [predict], [score] and [export] *)

Section prologue_claims.
Variables (mode raw_ignore_cls : Type).
Variable convert_ignore_cls : raw_ignore_cls -> result (list Z).

Ltac run_prologue Hc :=
  rewrite Hc; simpl;
  repeat match goal with
         | |- context [decide ?P] => destruct (decide P); simpl
         end;
  simpl in *;
  repeat match goal with
         | H : ~ (_ <> _) |- _ => apply dec_stable in H
         end;
  (eexists; split; [reflexivity |]); simpl;
  repeat split; try congruence; try tauto.

Lemma predict_updates (self : Prologue.instance mode) (speed : R)
    (arg : raw_ignore_cls) (ignore_cls : list Z) :
  convert_ignore_cls arg = Ok ignore_cls ->
  exists self',
    Prologue.predict mode raw_ignore_cls convert_ignore_cls self speed arg = Ok self' /\
    Prologue._ignore_cls mode self' = ignore_cls /\
    Prologue._speed mode self' = speed /\
    (ignore_cls <> Prologue._ignore_cls mode self \/ speed <> Prologue._speed mode self ->
     Prologue._session_mode mode self' = None) /\
    (ignore_cls = Prologue._ignore_cls mode self -> speed = Prologue._speed mode self ->
     self' = self).
Proof.
  intros Hc. unfold Prologue.predict. destruct self as [ig sp sm]. run_prologue Hc.
Qed.

Lemma score_updates (self : Prologue.instance mode) (speed : R)
    (arg : raw_ignore_cls) (ignore_cls : list Z) :
  convert_ignore_cls arg = Ok ignore_cls ->
  exists self',
    Prologue.score mode raw_ignore_cls convert_ignore_cls self speed arg = Ok self' /\
    Prologue._ignore_cls mode self' = ignore_cls /\
    Prologue._speed mode self' = speed /\
    (ignore_cls <> Prologue._ignore_cls mode self \/ speed <> Prologue._speed mode self ->
     Prologue._session_mode mode self' = None) /\
    (ignore_cls = Prologue._ignore_cls mode self -> speed = Prologue._speed mode self ->
     self' = self).
Proof.
  intros Hc. unfold Prologue.score. destruct self as [ig sp sm]. run_prologue Hc.
Qed.

Lemma export_updates (self : Prologue.instance mode) (speed : R)
    (arg : raw_ignore_cls) (ignore_cls : list Z) :
  convert_ignore_cls arg = Ok ignore_cls ->
  exists self',
    Prologue.export mode raw_ignore_cls convert_ignore_cls self speed arg = Ok self' /\
    Prologue._ignore_cls mode self' = ignore_cls /\
    Prologue._speed mode self' = speed /\
    (ignore_cls <> Prologue._ignore_cls mode self \/ speed <> Prologue._speed mode self ->
     Prologue._session_mode mode self' = None) /\
    (ignore_cls = Prologue._ignore_cls mode self -> speed = Prologue._speed mode self ->
     self' = self).
Proof.
  intros Hc. unfold Prologue.export. destruct self as [ig sp sm]. run_prologue Hc.
Qed.

(** C10. In [predict], [score] and [export], once [convert_ignore_cls]
    has returned, the stored [_ignore_cls] and [_speed] equal the
    supplied values; [_session_mode] is [None] when either differed from
    the stored one; and when both equalled the stored ones the three
    fields are as before. *)
Theorem prologue_updates (self : Prologue.instance mode) (speed : R)
    (arg : raw_ignore_cls) (ignore_cls : list Z) :
  convert_ignore_cls arg = Ok ignore_cls ->
  Forall
    (fun method : Prologue.instance mode -> R -> raw_ignore_cls ->
                  result (Prologue.instance mode) =>
       exists self',
         method self speed arg = Ok self' /\
         Prologue._ignore_cls mode self' = ignore_cls /\
         Prologue._speed mode self' = speed /\
         (ignore_cls <> Prologue._ignore_cls mode self \/
          speed <> Prologue._speed mode self ->
          Prologue._session_mode mode self' = None) /\
         (ignore_cls = Prologue._ignore_cls mode self ->
          speed = Prologue._speed mode self ->
          self' = self))
    [Prologue.predict mode raw_ignore_cls convert_ignore_cls;
     Prologue.score mode raw_ignore_cls convert_ignore_cls;
     Prologue.export mode raw_ignore_cls convert_ignore_cls].
Proof.
  intros Hc. repeat constructor.
  - apply predict_updates. assumption.
  - apply score_updates. assumption.
  - apply export_updates. assumption.
Qed.

End prologue_claims.

Lemma prologue_updates_witness :
  Forall
    (fun method : Prologue.instance unit -> R -> list Z ->
                  result (Prologue.instance unit) =>
       exists self',
         method (Prologue.mk_instance unit [0%Z] (1 / 10) (Some tt)) (1 / 2)%R [0%Z; 1%Z]
         = Ok self' /\
         Prologue._ignore_cls unit self' = [0%Z; 1%Z] /\
         Prologue._speed unit self' = (1 / 2)%R /\
         ([0%Z; 1%Z] <> [0%Z] \/ (1 / 2)%R <> (1 / 10)%R ->
          Prologue._session_mode unit self' = None) /\
         ([0%Z; 1%Z] = [0%Z] -> (1 / 2)%R = (1 / 10)%R ->
          self' = Prologue.mk_instance unit [0%Z] (1 / 10) (Some tt)))
    [Prologue.predict unit (list Z) Ok;
     Prologue.score unit (list Z) Ok;
     Prologue.export unit (list Z) Ok].
Proof.
  apply (prologue_updates unit (list Z) Ok
           (Prologue.mk_instance unit [0%Z] (1 / 10) (Some tt)) (1 / 2)%R
           [0%Z; 1%Z] [0%Z; 1%Z]).
  reflexivity.
Defined.

(** * Further properties of the code *)

(** ** The scorer outside its intended range *)

Section scorer_edges.
Local Open Scope R_scope.

Lemma neg_entropy_tiny_sharp : - (181 * tiny) <= neg_entropy tiny.
Proof.
  unfold neg_entropy. pose proof tiny_bounds as Ht.
  assert (H1 : ln tiny = - (20 * ln 10)).
  { replace tiny with (/ 10 ^ 20) by (unfold tiny; lra).
    rewrite ln_Rinv by (apply pow_lt; lra).
    rewrite ln_pow by lra. simpl INR. f_equal. f_equal. lra. }
  assert (H2 : - (tiny / (1 - tiny)) <= ln (1 - tiny)).
  { pose proof (ln_le_pred (/ (1 - tiny))) as H.
    rewrite ln_Rinv in H by lra.
    assert (0 < / (1 - tiny)) by (apply Rinv_0_lt_compat; lra).
    replace (tiny / (1 - tiny)) with (/ (1 - tiny) - 1) by (field; lra). lra. }
  assert (H3 : - tiny <= (1 - tiny) * ln (1 - tiny)).
  { replace (- tiny) with ((1 - tiny) * - (tiny / (1 - tiny))) by (field; lra).
    apply Rmult_le_compat_l; lra. }
  rewrite H1. pose proof ln_10_le. nra.
Qed.

Lemma clamp_outside (x : R) : x < tiny \/ 1 - tiny < x -> clamp x = tiny.
Proof.
  intros Hx. destruct (clamp_cases x) as [[-> _] | [_ ?]]; [reflexivity | lra].
Qed.

Lemma formula_outside (label_size : nat) (x : R) :
  x < tiny \/ 1 - tiny < x ->
  uncertainty_formula label_size x = neg_entropy tiny / ln (1 / INR label_size).
Proof.
  intros Hx. unfold uncertainty_formula. rewrite clamp_outside by assumption.
  reflexivity.
Qed.

Lemma formula_floor (label_size : nat) :
  (2 <= label_size)%nat ->
  0 < neg_entropy tiny / ln (1 / INR label_size) < 1e-17.
Proof.
  intros Hl. pose proof tiny_bounds as Ht.
  pose proof (divisor_neg label_size Hl) as Hd.
  pose proof (divisor_le label_size Hl) as Hd2.
  pose proof ln_lt_2 as H2.
  pose proof neg_entropy_tiny_sharp as Hs.
  assert (Hn : neg_entropy tiny < 0) by (apply neg_entropy_neg; lra).
  set (g := neg_entropy tiny) in *. set (dv := ln (1 / INR label_size)) in *.
  assert (Hinv : / dv < 0) by (apply Rinv_lt_0_compat; assumption).
  assert (Hq : g / dv = (- g) * / (- dv)) by (field; lra).
  assert (Hpos : 0 < / (- dv)) by (apply Rinv_0_lt_compat; lra).
  assert (Hle : / (- dv) <= / (/ 2)).
  { apply Rinv_le_contravar; lra. }
  rewrite Rinv_inv in Hle.
  rewrite Hq. unfold tiny in *. split; nra.
Qed.

Lemma uncertainty_clamped (label_size : nat) (x : R) :
  x < tiny \/ 1 - tiny < x ->
  _uncertainty label_size (Fin x) = _uncertainty label_size (Fin tiny).
Proof.
  intros Hx. pose proof tiny_bounds as Ht.
  destruct label_size as [| n]; [reflexivity |].
  rewrite !uncertainty_fin. rewrite clamp_outside by assumption.
  rewrite clamp_inside by lra. reflexivity.
Qed.

(** X1. Any probability below [1e-20] or above [1 - 1e-20], finite or
    infinite (so also 0, 1 and values outside [0,1]), is scored exactly
    as [1e-20] is; from two labels on that score is a positive number
    below [1e-17]. *)
Theorem uncertainty_out_of_range (label_size : nat) (p : npfloat) :
  p = PInf \/ p = NInf \/ (exists x, p = Fin x /\ (x < 1e-20 \/ 1 - 1e-20 < x)) ->
  _uncertainty label_size p = _uncertainty label_size (Fin 1e-20) /\
  ((2 <= label_size)%nat ->
   exists h, _uncertainty label_size p = Ok (Fin h) /\ 0 < h < 1e-17).
Proof.
  intros Hp. fold tiny in *.
  assert (Heq : _uncertainty label_size p = _uncertainty label_size (Fin tiny)).
  { destruct Hp as [-> | [-> | (x & -> & Hx)]].
    - apply uncertainty_infinite. auto.
    - apply uncertainty_infinite. auto.
    - apply uncertainty_clamped. assumption. }
  split; [assumption |]. intros Hl. rewrite Heq.
  exists (neg_entropy tiny / ln (1 / INR label_size)). split.
  - rewrite uncertainty_fin_formula by assumption. unfold uncertainty_formula.
    pose proof tiny_bounds. rewrite clamp_inside by lra. reflexivity.
  - apply formula_floor. assumption.
Qed.

Lemma uncertainty_out_of_range_witness :
  _uncertainty 2 (Fin 1) = _uncertainty 2 (Fin 1e-20) /\
  ((2 <= 2)%nat -> exists h, _uncertainty 2 (Fin 1) = Ok (Fin h) /\ 0 < h < 1e-17).
Proof.
  apply (uncertainty_out_of_range 2 (Fin 1)).
  right. right. exists 1. split; [reflexivity | right; lra].
Defined.



End scorer_edges.

(** ** Stages kept and passes made *)

Section stages.
Variable self : config.

Lemma ignored_stages_short :
  length (filter (fun c => c ∈ _ignore_cls self)
            (seqZ 0 (Z.of_nat (num_hidden_layers self) + 1)))
  <= length (_ignore_cls self).
Proof.
  apply submseteq_length. apply NoDup_submseteq.
  - apply NoDup_filter, NoDup_seqZ.
  - intros c Hc. apply list_elem_of_filter in Hc as [Hc _]. exact Hc.
Qed.

Lemma stages_split :
  length (filter (fun c => c ∈ _ignore_cls self)
            (seqZ 0 (Z.of_nat (num_hidden_layers self) + 1)))
  + length (keep_cls self) = S (num_hidden_layers self).
Proof.
  unfold keep_cls.
  set (stages := seqZ 0 (Z.of_nat (num_hidden_layers self) + 1)).
  change (filter (fun c => c ∉ _ignore_cls self) stages)
    with (filter (fun c => ~ c ∈ _ignore_cls self) stages).
  rewrite filter_complement_length. unfold stages. rewrite length_seqZ. lia.
Qed.

Lemma max_loop_le_keep : (max_loop self <= Z.of_nat (length (keep_cls self)))%Z.
Proof.
  pose proof ignored_stages_short. pose proof stages_split.
  unfold max_loop. lia.
Qed.

Lemma keep_cls_available (loop : nat) :
  loop < Z.to_nat (max_loop self) -> is_Some (keep_cls self !! loop).
Proof.
  intros Hl. apply lookup_lt_is_Some. pose proof max_loop_le_keep. lia.
Qed.

(** X3. [max_loop] never exceeds [len(keep_cls)], so [keep_cls[loop]]
    is defined in every pass; the two are equal exactly when
    [_ignore_cls] has no repeated entry and only stages between 0 and
    [num_hidden_layers].  A repeated or foreign entry leaves the last
    kept stages unused. *)
Theorem passes_within_kept_stages :
  (max_loop self <= Z.of_nat (length (keep_cls self)))%Z /\
  (forall loop, loop < Z.to_nat (max_loop self) -> is_Some (keep_cls self !! loop)) /\
  (max_loop self = Z.of_nat (length (keep_cls self)) <->
   NoDup (_ignore_cls self) /\
   forall c, c ∈ _ignore_cls self -> (0 <= c <= Z.of_nat (num_hidden_layers self))%Z).
Proof.
  split; [apply max_loop_le_keep |]. split; [apply keep_cls_available |].
  pose proof stages_split as Hsplit.
  set (stages := seqZ 0 (Z.of_nat (num_hidden_layers self) + 1)) in *.
  assert (Hsub : filter (fun c => c ∈ _ignore_cls self) stages ⊆+ _ignore_cls self).
  { apply NoDup_submseteq.
    - apply NoDup_filter, NoDup_seqZ.
    - intros c Hc. apply list_elem_of_filter in Hc as [Hc _]. exact Hc. }
  split.
  - intros Heq.
    assert (Hperm : filter (fun c => c ∈ _ignore_cls self) stages ≡ₚ _ignore_cls self).
    { apply submseteq_length_Permutation; [assumption |]. unfold max_loop in Heq. lia. }
    split.
    + rewrite <- Hperm. apply NoDup_filter, NoDup_seqZ.
    + intros c Hc. rewrite <- Hperm in Hc.
      apply list_elem_of_filter in Hc as [_ Hc].
      apply elem_of_seqZ in Hc. lia.
  - intros [Hnd Hr].
    assert (Hperm : filter (fun c => c ∈ _ignore_cls self) stages ≡ₚ _ignore_cls self).
    { apply NoDup_Permutation; [apply NoDup_filter, NoDup_seqZ | assumption |].
      intros c. rewrite list_elem_of_filter. split; [tauto |].
      intros Hc. split; [assumption |]. apply elem_of_seqZ. specialize (Hr c Hc). lia. }
    apply Permutation_length in Hperm. unfold max_loop. lia.
Qed.

End stages.

Lemma passes_within_kept_stages_witness :
  is_Some (keep_cls cfg_b !! 1).
Proof.
  destruct (passes_within_kept_stages cfg_b) as (_ & H & _).
  apply H. vm_compute. lia.
Defined.

(** ** The shape of the result *)

Section shape.
Variables (self : config) (batch_probs : list row).

Lemma no_pass_device (st : state) (d : nat) :
  (max_loop self <= 0)%Z ->
  run_device (label_size self) (_speed self) batch_probs (max_loop self)
    (keep_cls self) (d_batch_size self) st d
  = Ok (st, initial_unfinished (d_batch_size self) (st_i st)).
Proof.
  intros Hm. unfold run_device.
  replace (Z.to_nat (max_loop self)) with 0 by lia. reflexivity.
Qed.

Lemma no_pass_loops :
  (max_loop self <= 0)%Z -> permutate_loops self batch_probs = Ok (initial_state self).
Proof.
  intros Hm. unfold permutate_loops. generalize (initial_state self).
  induction (seq 0 (n_device self)) as [| d ds IH]; intros st; simpl; [reflexivity |].
  rewrite no_pass_device by assumption. simpl. apply IH.
Qed.

(** X4. When [_ignore_cls] is at least as long as the list of stages
    ([max_loop <= 0]) no pass is made: an empty [batch_probs] returns
    the all-zero [probs] and [sources] untouched, and any row at all
    fails the closing assertion. *)
Theorem no_stage_left :
  (max_loop self <= 0)%Z ->
  _permutate self batch_probs =
  match batch_probs with
  | [] => Ok (replicate (batch_size self) (replicate (label_size self) (Fin 0)),
              replicate (batch_size self) 0%Z)
  | _ :: _ => Raise AssertionError
  end.
Proof.
  intros Hm. unfold _permutate. rewrite no_pass_loops by assumption. simpl.
  destruct batch_probs; reflexivity.
Qed.

Lemma foldl_apply_source_Forall (P : Z -> Prop) (evs : list event) (a : list Z) :
  Forall P a ->
  Forall (fun e => ev_exit e = true -> P (ev_source e)) evs ->
  Forall P (foldl apply_source a evs).
Proof.
  revert a. induction evs as [| e evs IH]; intros a Ha He; simpl; [assumption |].
  inversion He as [| ? ? He1 He2]; subst. apply IH; [| assumption].
  unfold apply_source. destruct (ev_exit e) eqn:Hx; [| assumption].
  apply Forall_insert; auto.
Qed.

Lemma foldl_apply_prob_Forall (P : row -> Prop) (evs : list event) (a : list row) :
  Forall P a ->
  Forall (fun e => forall r, batch_probs !! ev_row e = Some r -> P r) evs ->
  Forall P (foldl (apply_prob batch_probs) a evs).
Proof.
  revert a. induction evs as [| e evs IH]; intros a Ha He; simpl; [assumption |].
  inversion He as [| ? ? He1 He2]; subst. apply IH; [| assumption].
  unfold apply_prob. destruct (ev_exit e); [| assumption].
  destruct (batch_probs !! ev_row e) as [r |] eqn:Hr; [| assumption].
  apply Forall_insert; auto.
Qed.

(** X5. For any number of devices, when [_permutate] returns, [probs]
    and [sources] have [batch_size] entries; every row of [probs] is a
    row of [batch_probs] or the initial row of zeros, and every entry of
    [sources] is a kept stage or the initial 0. *)
Theorem result_shape (probs : list row) (sources : list Z) :
  _permutate self batch_probs = Ok (probs, sources) ->
  length probs = batch_size self /\
  length sources = batch_size self /\
  Forall (fun r => r ∈ batch_probs \/ r = replicate (label_size self) (Fin 0)) probs /\
  Forall (fun s => s ∈ keep_cls self \/ s = 0%Z) sources.
Proof.
  intros H. apply permutate_ok in H as (st & Hst & _ & Hout).
  inversion Hout; subst probs sources; clear Hout.
  apply permutate_loops_stretch in Hst.
  destruct Hst as (_ & _ & _ & _ & Hsrc & Hprb & Hall). simpl in Hsrc, Hprb.
  rewrite Hsrc, Hprb, foldl_apply_prob_length, foldl_apply_source_length.
  rewrite !length_replicate.
  split; [reflexivity |]. split; [reflexivity |]. split.
  - apply foldl_apply_prob_Forall.
    + apply Forall_replicate. right. reflexivity.
    + apply Forall_forall. intros e _ r Hr. left.
      eapply list_elem_of_lookup_2. exact Hr.
  - apply foldl_apply_source_Forall.
    + apply Forall_replicate. right. reflexivity.
    + eapply Forall_impl; [exact Hall |].
      intros e (_ & _ & _ & _ & _ & _ & _ & Hk) _. left.
      eapply list_elem_of_lookup_2. exact Hk.
Qed.

End shape.

Lemma no_stage_left_witness :
  _permutate (mk_config [] 2 2 1 [0%Z; 1%Z] (1 / 10)) [half_row]
  = Raise AssertionError.
Proof.
  apply (no_stage_left (mk_config [] 2 2 1 [0%Z; 1%Z] (1 / 10)) [half_row]).
  vm_compute. discriminate.
Defined.

Lemma result_shape_witness :
  length [sure_row; half_row] = batch_size cfg_a /\
  length [0%Z; 3%Z] = batch_size cfg_a /\
  Forall (fun r => r ∈ rows_a \/ r = replicate (label_size cfg_a) (Fin 0))
    [sure_row; half_row] /\
  Forall (fun s => s ∈ keep_cls cfg_a \/ s = 0%Z) [0%Z; 3%Z].
Proof.
  apply (result_shape cfg_a rows_a). apply scenario_a.
Defined.

(** ** How many rows a call reads *)

Section counting.
Variables (label_size : nat) (speed : R) (batch_probs : list row).
Variables (max_loop : Z) (keep_cls : list Z).

Local Abbreviation stretch := (stretch label_size speed batch_probs max_loop keep_cls).

Lemma stretch_count (st st' : state) (evs : list event) :
  stretch st st' evs -> st_i st' = st_i st + length evs.
Proof. intros (_ & _ & Hi & _). exact Hi. Qed.

Lemma exited_length (evs : list event) : length (exited evs) <= length evs.
Proof. unfold exited. rewrite length_fmap. apply length_filter. Qed.

Lemma filter_all {A : Type} (P : A -> Prop) `{forall x, Decision (P x)} (l : list A) :
  length (filter P l) = length l -> Forall P l.
Proof.
  induction l as [| x l IH]; intros Hl; [constructor |].
  rewrite filter_cons in Hl. destruct (decide (P x)) as [Hx | Hx].
  - simpl in Hl. constructor; [assumption | apply IH; lia].
  - pose proof (length_filter P l). simpl in Hl. lia.
Qed.

Lemma exited_all (evs : list event) :
  length (exited evs) = length evs -> Forall (fun e => ev_exit e = true) evs.
Proof. unfold exited. rewrite length_fmap. apply filter_all. Qed.

Lemma loops_upper (d : nat) (loops : list nat) (st : state) (unf : list nat)
    (st' : state) (unf' : list nat) :
  for_each (run_loop label_size speed batch_probs max_loop keep_cls d) loops (st, unf)
  = Ok (st', unf') ->
  st_i st' <= st_i st + length loops * length unf.
Proof.
  revert st unf. induction loops as [| l loops IH]; intros st unf H; simpl in H.
  - inversion H; subst. lia.
  - apply bind_ok in H as ([st1 unf1] & H1 & H).
    apply run_loop_facts in H1 as (evs1 & Hs1 & Hex & _ & Hsub & _).
    apply IH in H. apply stretch_count in Hs1.
    apply sublist_length in Hsub.
    assert (Hlen : length evs1 = length unf) by (rewrite <- Hex, length_fmap; reflexivity).
    simpl. nia.
Qed.

(** A device chunk reads at least one row per example, and exactly one
    per example only when every entry is an exit. *)
Lemma device_lower (d d_batch_size : nat) (st st' : state) (unf' : list nat) :
  (1 <= max_loop)%Z ->
  run_device label_size speed batch_probs max_loop keep_cls d_batch_size st d
  = Ok (st', unf') ->
  exists evs, stretch st st' evs /\
    unf' = [] /\
    initial_unfinished d_batch_size (st_i st) ≡ₚ exited evs /\
    d_batch_size <= length evs /\
    (length evs = d_batch_size -> Forall (fun e => ev_exit e = true) evs).
Proof.
  intros Hm H. unfold run_device in H.
  apply loops_facts in H as (evs & Hs & _ & _ & Hperm & Hlast).
  assert (Hunf : unf' = []).
  { apply Hlast. exists (Z.to_nat (max_loop - 1)).
    split; [apply elem_of_seq |]; lia. }
  subst unf'. rewrite app_nil_r in Hperm.
  assert (Hlen : length (exited evs) = d_batch_size).
  { rewrite <- Hperm. unfold initial_unfinished.
    rewrite length_map, length_seq. reflexivity. }
  pose proof (exited_length evs).
  exists evs. split; [assumption |]. split; [reflexivity |].
  split; [assumption |]. split; [lia |].
  intros Heq. apply exited_all. lia.
Qed.

End counting.

Section counting_devices.
Variables (self : config) (batch_probs : list row).

Local Abbreviation stretch :=
  (stretch (label_size self) (_speed self) batch_probs (max_loop self) (keep_cls self)).
Local Abbreviation device_body :=
  (fun st d =>
     let* (st', _) :=
       run_device (label_size self) (_speed self) batch_probs
         (max_loop self) (keep_cls self) (d_batch_size self) st d in
     Ok st').

Lemma devices_count (devices : list nat) (st st' : state) :
  for_each device_body devices st = Ok st' ->
  exists evs, stretch st st' evs /\
    length evs <= length devices * (Z.to_nat (max_loop self) * d_batch_size self) /\
    ((1 <= max_loop self)%Z ->
     length devices * d_batch_size self <= length evs /\
     (length evs = length devices * d_batch_size self ->
      Forall (fun e => ev_exit e = true) evs)).
Proof.
  revert st. induction devices as [| d devices IH]; intros st H; simpl in H.
  - inversion H; subst. exists []. split; [apply stretch_nil |].
    split; [simpl; lia |]. intros _. split; [simpl; lia | constructor].
  - apply bind_ok in H as (st1 & H1 & H).
    apply bind_ok in H1 as ([st1' unf'] & H1 & Heq). inversion Heq; subst; clear Heq.
    apply IH in H as (evs2 & Hs2 & Hup2 & Hlow2).
    pose proof H1 as Hup1. unfold run_device in Hup1. apply loops_upper in Hup1.
    rewrite length_seq in Hup1. unfold initial_unfinished in Hup1.
    rewrite length_map, length_seq in Hup1.
    pose proof H1 as Hrun. unfold run_device in Hrun.
    apply loops_facts in Hrun as (evs1 & Hs1 & _).
    pose proof (stretch_count _ _ _ _ _ _ _ _ Hs1) as Hc1.
    exists (evs1 ++ evs2).
    split; [apply (stretch_trans _ _ _ _ _ st st1 st'); assumption |].
    rewrite length_app. split; [simpl; lia |].
    intros Hm. destruct (Hlow2 Hm) as [Hl2 Hall2].
    destruct (device_lower _ _ _ _ _ _ _ _ _ _ Hm H1) as (evs1' & Hs1' & _ & _ & Hl1 & Hall1).
    assert (evs1' = evs1).
    { destruct Hs1 as (Hh1 & _). destruct Hs1' as (Hh1' & _).
      rewrite Hh1 in Hh1'. apply app_inv_head in Hh1'. auto. }
    subst evs1'. split; [simpl; lia |].
    intros Heq. simpl in Heq. apply Forall_app. split; [apply Hall1 | apply Hall2]; lia.
Qed.

Lemma permutate_loops_count (st : state) :
  permutate_loops self batch_probs = Ok st ->
  st_i st = length (st_history st) /\
  st_i st <= length batch_probs /\
  st_i st <= n_device self * (Z.to_nat (max_loop self) * d_batch_size self) /\
  ((1 <= max_loop self)%Z ->
   n_device self * d_batch_size self <= st_i st /\
   (st_i st = n_device self * d_batch_size self ->
    Forall (fun e => ev_exit e = true) (st_history st))).
Proof.
  intros H. pose proof (permutate_loops_stretch self batch_probs st H) as Hs.
  unfold permutate_loops in H. apply devices_count in H as (evs & Hs' & Hup & Hlow).
  rewrite length_seq in Hup, Hlow.
  assert (Hev : st_history st = evs) by (destruct Hs' as (-> & _); reflexivity).
  rewrite Hev. destruct Hs' as (_ & _ & Hi & Hb & _). simpl in Hi, Hb.
  rewrite Hi. split; [reflexivity |]. split; [rewrite <- Hi; apply Hb; lia |].
  split; assumption.
Qed.

(** X6. When [_permutate] returns, the number of rows of [batch_probs]
    is at most [max_loop] per example of the [n_device] chunks and,
    when at least one pass is made, at least one per such example. *)
Theorem rows_between (out : list row * list Z) :
  _permutate self batch_probs = Ok out ->
  length batch_probs
  <= n_device self * (Z.to_nat (max_loop self) * d_batch_size self) /\
  ((1 <= max_loop self)%Z ->
   n_device self * d_batch_size self <= length batch_probs).
Proof.
  intros H. apply permutate_ok in H as (st & Hst & Hi & _).
  apply permutate_loops_count in Hst as (_ & _ & Hup & Hlow).
  rewrite <- Hi. split; [assumption |]. intros Hm. apply Hlow. assumption.
Qed.

End counting_devices.

Lemma rows_between_witness :
  length rows_a <= n_device cfg_a * (Z.to_nat (max_loop cfg_a) * d_batch_size cfg_a) /\
  ((1 <= max_loop cfg_a)%Z -> n_device cfg_a * d_batch_size cfg_a <= length rows_a).
Proof.
  apply (rows_between cfg_a rows_a ([sure_row; half_row], [0%Z; 3%Z])).
  apply scenario_a.
Defined.

(** ** Which exception, and when *)

Lemma bind_raise {A B : Type} (m : result A) (f : A -> result B) (e : exn)
    (Q : Prop) :
  (m = Raise e -> Q) -> (forall a, f a = Raise e -> Q) ->
  bind m f = Raise e -> Q.
Proof.
  intros Hm Hf H. destruct m as [a | e']; simpl in H; [eapply Hf; eassumption |].
  apply Hm. inversion H. reflexivity.
Qed.

Lemma for_each_raise {A S : Type} (body : S -> A -> result S) (xs : list A) (acc : S)
    (e : exn) (Q : Prop) :
  (forall a x, body a x = Raise e -> Q) ->
  for_each body xs acc = Raise e -> Q.
Proof.
  intros Hb. revert acc. induction xs as [| x xs IH]; intros acc H; simpl in H;
    [discriminate |].
  revert H. apply bind_raise; [apply Hb | intros a; apply IH].
Qed.

Lemma getitem_raise {A : Type} (xs : list A) (k : nat) (e : exn) :
  getitem xs k = Raise e -> e = IndexError.
Proof. unfold getitem. destruct (xs !! k); intros H; inversion H. reflexivity. Qed.

Lemma setitem_raise {A : Type} (xs : list A) (k : nat) (v : A) (e : exn) :
  setitem xs k v = Raise e -> e = IndexError.
Proof.
  unfold setitem. destruct (decide (k < length xs)); intros H; inversion H. reflexivity.
Qed.

Lemma uncertainty_raise (label_size : nat) (p : npfloat) (e : exn) :
  _uncertainty label_size p = Raise e -> e = ZeroDivisionError /\ label_size = 0.
Proof.
  unfold _uncertainty, py_truediv. destruct label_size; simpl; intros H; inversion H.
  auto.
Qed.

Lemma visit_raise (label_size : nat) (speed : R) (batch_probs : list row)
    (max_loop : Z) (d loop : nat) (source : Z) (acc : state * list nat) (ex : nat)
    (e : exn) :
  visit label_size speed batch_probs max_loop d loop source acc ex = Raise e ->
  e = IndexError \/ (e = ZeroDivisionError /\ label_size = 0).
Proof.
  unfold visit. destruct acc as [st next].
  apply bind_raise; [intros H; left; eapply getitem_raise; eassumption | intros r].
  apply bind_raise; [intros H; left; eapply getitem_raise; eassumption | intros p].
  apply bind_raise; [intros H; right; eapply uncertainty_raise; eassumption | intros u].
  destruct (np_lt u (Fin speed) || (Z.of_nat loop =? max_loop - 1)%Z); [| discriminate].
  apply bind_raise; [intros H; left; eapply setitem_raise; eassumption | intros probs'].
  apply bind_raise; [intros H; left; eapply setitem_raise; eassumption | intros sources'].
  discriminate.
Qed.

Lemma permutate_loops_raise (self : config) (batch_probs : list row) (e : exn) :
  permutate_loops self batch_probs = Raise e ->
  e = IndexError \/ (e = ZeroDivisionError /\ label_size self = 0).
Proof.
  unfold permutate_loops. apply for_each_raise. intros st d.
  apply bind_raise; [| intros [st' unf]; discriminate].
  unfold run_device. apply for_each_raise. intros [st1 unf] loop.
  unfold run_loop.
  apply bind_raise; [intros H; left; eapply getitem_raise; eassumption | intros source].
  apply for_each_raise. intros acc ex. apply visit_raise.
Qed.

(** X7. With at least one pass to make and a positive [label_size], a
    [batch_probs] with fewer rows than the [n_device] chunks have
    examples (an empty one included) raises [IndexError]; the closing
    assertion is not reached. *)
Theorem too_few_rows (self : config) (batch_probs : list row) :
  (1 <= max_loop self)%Z ->
  label_size self <> 0 ->
  length batch_probs < n_device self * d_batch_size self ->
  _permutate self batch_probs = Raise IndexError.
Proof.
  intros Hm Hl Hshort. unfold _permutate.
  destruct (permutate_loops self batch_probs) as [st | e] eqn:Hst.
  - apply permutate_loops_count in Hst as (_ & Hle & _ & Hlow).
    destruct (Hlow Hm) as [Hge _]. lia.
  - apply permutate_loops_raise in Hst as [-> | [_ H0]]; [reflexivity | contradiction].
Qed.

Lemma too_few_rows_witness : _permutate cfg_a [] = Raise IndexError.
Proof.
  apply (too_few_rows cfg_a []).
  - vm_compute. discriminate.
  - simpl. discriminate.
  - vm_compute. lia.
Defined.

(** ** Chunks whose entries are all exits *)

Section all_exit.
Variables (label_size : nat) (speed : R) (batch_probs : list row).
Variables (max_loop : Z) (keep_cls : list Z).

Local Abbreviation stretch := (stretch label_size speed batch_probs max_loop keep_cls).

Lemma stretch_unique (st st' : state) (evs evs' : list event) :
  stretch st st' evs -> stretch st st' evs' -> evs = evs'.
Proof.
  intros (H & _) (H' & _). rewrite H in H'. apply app_inv_head in H'. assumption.
Qed.

Lemma initial_unfinished_seq (n i : nat) : initial_unfinished n i = seq i n.
Proof.
  unfold initial_unfinished.
  replace (seq i n) with (Nat.add i <$> seq 0 n)
    by (rewrite fmap_add_seq; f_equal; lia).
  apply map_ext. intros k. lia.
Qed.

Lemma loops_from_empty (d : nat) (loops : list nat) (st st' : state) (unf' : list nat) :
  for_each (run_loop label_size speed batch_probs max_loop keep_cls d) loops (st, [])
  = Ok (st', unf') ->
  st' = st /\ unf' = [].
Proof.
  revert st. induction loops as [| l loops IH]; intros st H; simpl in H.
  - inversion H; auto.
  - apply bind_ok in H as ([st1 unf1] & H1 & H).
    apply bind_ok in H1 as (source & _ & H1). inversion H1; subst st1 unf1.
    apply IH. assumption.
Qed.

Lemma no_stayers (evs : list event) :
  Forall (fun e => ev_exit e = true) evs ->
  filter (fun e => ev_exit e <> true) evs = [].
Proof.
  induction evs as [| e evs IH]; intros H; [reflexivity |].
  inversion H; subst. rewrite filter_cons, decide_False by auto. auto.
Qed.

Lemma exited_all_exit (evs : list event) :
  Forall (fun e => ev_exit e = true) evs -> exited evs = ev_example <$> evs.
Proof.
  intros H. unfold exited. f_equal.
  induction evs as [| e evs IH]; [reflexivity |].
  inversion H; subst. rewrite filter_cons, decide_True by assumption.
  f_equal. auto.
Qed.

(** A chunk in which every entry is an exit makes entries in its first
    pass only, one per example, in order. *)
Lemma device_structure (d d_batch_size : nat) (st st' : state) (unf' : list nat) :
  (1 <= max_loop)%Z ->
  run_device label_size speed batch_probs max_loop keep_cls d_batch_size st d
  = Ok (st', unf') ->
  exists evs, stretch st st' evs /\
    (Forall (fun e => ev_exit e = true) evs ->
     ev_example <$> evs = seq (st_i st) d_batch_size /\
     Forall (fun e => ev_loop e = 0) evs).
Proof.
  intros Hm H. unfold run_device in H.
  replace (Z.to_nat max_loop) with (S (Z.to_nat (max_loop - 1))) in H by lia.
  simpl in H. apply bind_ok in H as ([st1 unf1] & H1 & H).
  apply run_loop_stretch in H1 as (evs1 & Hs1 & Hex1 & Hdl1 & Hnext).
  pose proof H as H2. apply loops_facts in H2 as (evs2 & Hs2 & _).
  exists (evs1 ++ evs2).
  split; [apply (stretch_trans _ _ _ _ _ st st1 st'); assumption |].
  intros Hall. apply Forall_app in Hall as [Hall1 Hall2].
  rewrite (no_stayers evs1 Hall1) in Hnext. simpl in Hnext. subst unf1.
  apply loops_from_empty in H as [-> _].
  assert (evs2 = []).
  { destruct Hs2 as (Hh & _). rewrite <- (app_nil_r (st_history st1)) in Hh at 1.
    apply app_inv_head in Hh. auto. }
  subst evs2. rewrite app_nil_r. split.
  - rewrite Hex1. apply initial_unfinished_seq.
  - eapply Forall_impl; [exact Hdl1 |]. intros e [_ ?]. assumption.
Qed.

End all_exit.

Section all_exit_devices.
Variables (self : config) (batch_probs : list row).

Local Abbreviation stretch :=
  (stretch (label_size self) (_speed self) batch_probs (max_loop self) (keep_cls self)).
Local Abbreviation device_body :=
  (fun st d =>
     let* (st', _) :=
       run_device (label_size self) (_speed self) batch_probs
         (max_loop self) (keep_cls self) (d_batch_size self) st d in
     Ok st').

Lemma devices_structure (devices : list nat) (st st' : state) :
  (1 <= max_loop self)%Z ->
  for_each device_body devices st = Ok st' ->
  exists evs, stretch st st' evs /\
    (Forall (fun e => ev_exit e = true) evs ->
     ev_example <$> evs = seq (st_i st) (length devices * d_batch_size self) /\
     ev_row <$> evs = seq (st_i st) (length devices * d_batch_size self) /\
     Forall (fun e => ev_loop e = 0) evs).
Proof.
  intros Hm. revert st. induction devices as [| d devices IH]; intros st H; simpl in H.
  - inversion H; subst. exists []. split; [apply stretch_nil |].
    intros _. simpl. auto.
  - apply bind_ok in H as (st1 & H1 & H).
    apply bind_ok in H1 as ([st1' unf'] & H1 & Heq). inversion Heq; subst; clear Heq.
    apply (device_structure _ _ _ _ _ _ _ _ _ _ Hm) in H1 as (evs1 & Hs1 & Hst1).
    apply IH in H as (evs2 & Hs2 & Hst2).
    exists (evs1 ++ evs2).
    split; [apply (stretch_trans _ _ _ _ _ st st1 st'); assumption |].
    intros Hall. apply Forall_app in Hall as [Hall1 Hall2].
    destruct (Hst1 Hall1) as [Hex1 Hl1]. destruct (Hst2 Hall2) as (Hex2 & Hrow2 & Hl2).
    assert (Hlen1 : length evs1 = d_batch_size self).
    { rewrite <- (length_fmap ev_example), Hex1, length_seq. reflexivity. }
    assert (Hi1 : st_i st1 = st_i st + d_batch_size self).
    { destruct Hs1 as (_ & _ & Hi & _). lia. }
    assert (Hseq : seq (st_i st) (S (length devices) * d_batch_size self)
                   = seq (st_i st) (d_batch_size self)
                     ++ seq (st_i st1) (length devices * d_batch_size self)).
    { simpl. rewrite seq_app, Hi1. reflexivity. }
    change (length (d :: devices)) with (S (length devices)).
    rewrite Hseq, !fmap_app, Hex1, Hex2, Hrow2.
    split; [reflexivity |]. split; [| apply Forall_app; auto].
    f_equal. destruct Hs1 as (_ & Hrow1 & _). rewrite Hrow1, Hlen1. reflexivity.
Qed.

Lemma chunks_fit : n_device self * d_batch_size self <= batch_size self.
Proof.
  unfold d_batch_size. apply Nat.Div0.mul_div_le.
Qed.

Lemma fmap_eq_pointwise {A B : Type} (f g : A -> B) (l : list A) (x : A) :
  f <$> l = g <$> l -> x ∈ l -> f x = g x.
Proof.
  induction l as [| y l IH]; intros H Hx; [inversion Hx |].
  rewrite !fmap_cons in H. inversion H.
  apply elem_of_cons in Hx as [-> | Hx]; auto.
Qed.

Lemma no_writer (evs : list event) (k : nat) :
  k ∉ ev_example <$> evs -> filter (writes_to k) evs = [].
Proof.
  induction evs as [| e evs IH]; intros Hk; [reflexivity |].
  rewrite fmap_cons in Hk. apply not_elem_of_cons in Hk as [Hne Hk].
  rewrite filter_cons, decide_False; [auto |].
  intros [He _]. congruence.
Qed.

(** What the arrays hold after chunks in which every entry was an exit. *)
Lemma devices_all_exit_contents (devices : list nat) (st : state) (k : nat) :
  (1 <= max_loop self)%Z ->
  length devices * d_batch_size self <= batch_size self ->
  for_each device_body devices (initial_state self) = Ok st ->
  Forall (fun e => ev_exit e = true) (st_history st) ->
  st_i st = length devices * d_batch_size self /\
  (k < length devices * d_batch_size self ->
   st_probs st !! k = batch_probs !! k /\
   st_sources st !! k = keep_cls self !! 0) /\
  (length devices * d_batch_size self <= k ->
   st_probs st !! k = st_probs (initial_state self) !! k /\
   st_sources st !! k = st_sources (initial_state self) !! k).
Proof.
  intros Hm Hfit H Hall.
  assert (Hs : stretch (initial_state self) st (st_history st)).
  { destruct (device_fold_stretch self batch_probs devices _ _ H) as (evs & Hs).
    assert (Hh : st_history st = evs) by (destruct Hs as (-> & _); reflexivity).
    rewrite Hh. assumption. }
  apply (devices_structure _ _ _ Hm) in H as (evs & Hs' & Hst).
  pose proof (stretch_unique _ _ _ _ _ _ _ _ _ Hs Hs'). subst evs.
  destruct (Hst Hall) as (Hex & Hrow & Hloop). clear Hst Hs'.
  simpl in Hex, Hrow.
  set (m := length devices * d_batch_size self) in *.
  destruct Hs as (_ & _ & Hi & _ & Hsrc & Hprb & Hsound). simpl in Hi.
  assert (Hlen : length (st_history st) = m).
  { rewrite <- (length_fmap ev_example), Hex, length_seq. reflexivity. }
  split; [lia |]. split.
  - intros Hk.
    assert (Hnd : NoDup (exited (st_history st))).
    { rewrite exited_all_exit, Hex by assumption. apply NoDup_seq. }
    assert (Hin : k ∈ exited (st_history st)).
    { rewrite exited_all_exit, Hex by assumption. apply elem_of_seq. lia. }
    destruct (unique_exit _ _ Hnd Hin) as (e & Hf & He).
    assert (Hw : writes_to k e).
    { assert (He' : e ∈ filter (writes_to k) (st_history st)) by (rewrite Hf; left).
      apply list_elem_of_filter in He' as [He' _]. exact He'. }
    destruct Hw as [Hek _].
    pose proof (fmap_eq_pointwise ev_example ev_row (st_history st) e) as Her.
    rewrite Hex, Hrow in Her. specialize (Her eq_refl He).
    rewrite Forall_forall in Hsound, Hloop.
    destruct (Hsound e He) as (r & p & u & Hr & _ & _ & _ & Hkeep).
    rewrite (Hloop e He) in Hkeep.
    split.
    + assert (Hrk : batch_probs !! k = Some r) by (rewrite <- Hek, Her; exact Hr).
      rewrite Hprb, Hrk.
      apply written_prob with (e := e); [exact Hf | | exact Hr].
      simpl. rewrite length_replicate. lia.
    + rewrite Hsrc, Hkeep. apply written_source; [assumption |].
      simpl. rewrite length_replicate. lia.
  - intros Hk.
    assert (Hno : filter (writes_to k) (st_history st) = []).
    { apply no_writer. rewrite Hex. intros Hin. apply elem_of_seq in Hin. lia. }
    rewrite Hprb, Hsrc. split; [apply untouched_prob | apply untouched_source];
      assumption.
Qed.

Lemma all_exit_contents (st : state) (k : nat) :
  (1 <= max_loop self)%Z ->
  permutate_loops self batch_probs = Ok st ->
  Forall (fun e => ev_exit e = true) (st_history st) ->
  st_i st = n_device self * d_batch_size self /\
  (k < n_device self * d_batch_size self ->
   st_probs st !! k = batch_probs !! k /\
   st_sources st !! k = keep_cls self !! 0) /\
  (n_device self * d_batch_size self <= k ->
   st_probs st !! k = st_probs (initial_state self) !! k /\
   st_sources st !! k = st_sources (initial_state self) !! k).
Proof.
  intros Hm H Hall. unfold permutate_loops in H.
  pose proof (devices_all_exit_contents (seq 0 (n_device self)) st k Hm) as Hc.
  rewrite length_seq in Hc. apply Hc; [apply chunks_fit | assumption | assumption].
Qed.

End all_exit_devices.

(** ** Where a chunk writes *)

Section chunk_writes.
Variables (label_size : nat) (speed : R) (batch_probs : list row).
Variables (max_loop : Z) (keep_cls : list Z).

Local Abbreviation stretch := (stretch label_size speed batch_probs max_loop keep_cls).

Lemma stretch_lengths (st st' : state) (evs : list event) :
  stretch st st' evs ->
  length (st_probs st') = length (st_probs st) /\
  length (st_sources st') = length (st_sources st).
Proof.
  intros (_ & _ & _ & _ & Hs & Hp & _).
  rewrite Hs, Hp, foldl_apply_prob_length, foldl_apply_source_length. auto.
Qed.

Lemma visit_placed (d loop : nat) (source : Z) (st : state) (next : list nat)
    (ex : nat) (st' : state) (next' : list nat) :
  keep_cls !! loop = Some source ->
  visit label_size speed batch_probs max_loop d loop source (st, next) ex
  = Ok (st', next') ->
  exists e, stretch st st' [e] /\ ev_example e = ex /\
    (ev_exit e = true -> ex < length (st_probs st)).
Proof.
  intros Hk H. pose proof H as H'.
  apply (visit_stretch _ _ _ _ _ _ _ _ _ _ _ _ _ Hk) in H' as (e & Hs & _ & _ & He & Hn).
  exists e. split; [assumption |]. split; [assumption |].
  intros Hx. unfold visit in H.
  apply bind_ok in H as (r & _ & H). apply bind_ok in H as (p & _ & H).
  apply bind_ok in H as (u & _ & H).
  destruct (np_lt u (Fin speed) || (Z.of_nat loop =? max_loop - 1)%Z).
  - apply bind_ok in H as (probs' & Hpr & _). apply setitem_ok in Hpr as [Hlt _].
    assumption.
  - inversion H; subst; clear H. destruct Hs as (Hh & _). simpl in Hh.
    apply app_inv_head in Hh. inversion Hh as [He']. rewrite <- He' in Hx.
    simpl in Hx. discriminate.
Qed.

Lemma inner_placed (d loop : nat) (source : Z) (unf : list nat) (st : state)
    (next : list nat) (st' : state) (next' : list nat) :
  keep_cls !! loop = Some source ->
  for_each (visit label_size speed batch_probs max_loop d loop source) unf (st, next)
  = Ok (st', next') ->
  exists evs, stretch st st' evs /\
    Forall (placed unf (length (st_probs st))) evs.
Proof.
  intros Hk. revert st next.
  induction unf as [| ex unf IH]; intros st next H; simpl in H.
  - inversion H; subst. exists []. split; [apply stretch_nil | constructor].
  - apply bind_ok in H as ([st1 next1] & H1 & H).
    apply (visit_placed _ _ _ _ _ _ _ _ Hk) in H1 as (e & Hs1 & He & Hr).
    apply IH in H as (evs & Hs2 & Hall).
    destruct (stretch_lengths _ _ _ Hs1) as [Hlp _].
    exists (e :: evs).
    split; [apply (stretch_trans _ _ _ _ _ st st1 st' [e] evs); assumption |].
    constructor.
    + split; [rewrite He; left | rewrite He; assumption].
    + eapply Forall_impl; [exact Hall |]. intros e' [Hin Hx].
      split; [right; assumption | rewrite <- Hlp; assumption].
Qed.

Lemma loops_placed (d : nat) (loops : list nat) (st : state) (unf : list nat)
    (st' : state) (unf' : list nat) :
  for_each (run_loop label_size speed batch_probs max_loop keep_cls d) loops (st, unf)
  = Ok (st', unf') ->
  exists evs, stretch st st' evs /\
    Forall (placed unf (length (st_probs st))) evs.
Proof.
  revert st unf. induction loops as [| l loops IH]; intros st unf H; simpl in H.
  - inversion H; subst. exists []. split; [apply stretch_nil | constructor].
  - apply bind_ok in H as ([st1 unf1] & H1 & H).
    pose proof H1 as Hf. apply run_loop_facts in Hf as (evs0 & Hs0 & _ & _ & Hsub & _).
    unfold run_loop in H1. apply bind_ok in H1 as (source & Hk & H1).
    apply getitem_ok in Hk.
    apply (inner_placed _ _ _ _ _ _ _ _ Hk) in H1 as (evs1 & Hs1 & Hall1).
    apply IH in H as (evs2 & Hs2 & Hall2).
    destruct (stretch_lengths _ _ _ Hs1) as [Hlp _].
    exists (evs1 ++ evs2).
    split; [apply (stretch_trans _ _ _ _ _ st st1 st'); assumption |].
    apply Forall_app. split; [assumption |].
    eapply Forall_impl; [exact Hall2 |]. intros e [Hin Hx].
    split; [eapply elem_of_sublist; eassumption | rewrite <- Hlp; assumption].
Qed.

End chunk_writes.

(** ** Calls that cannot fail before the closing assertion *)

Section forward.
Variables (label_size : nat) (speed : R) (batch_probs : list row).
Variables (max_loop : Z) (keep_cls : list Z).

Local Abbreviation stretch := (stretch label_size speed batch_probs max_loop keep_cls).

Lemma uncertainty_returns (p : npfloat) :
  label_size <> 0 -> exists u, _uncertainty label_size p = Ok u.
Proof.
  intros Hl. destruct label_size as [| n]; [contradiction |].
  unfold _uncertainty, py_truediv. simpl. eauto.
Qed.

Lemma visit_succeeds (d loop : nat) (source : Z) (st : state) (next : list nat)
    (ex : nat) :
  label_size <> 0 ->
  (forall r : row, r ∈ batch_probs -> r <> []) ->
  st_i st < length batch_probs ->
  ex < length (st_probs st) -> ex < length (st_sources st) ->
  exists acc, visit label_size speed batch_probs max_loop d loop source (st, next) ex
              = Ok acc.
Proof.
  intros Hl Hrows Hi Hp Hs. unfold visit.
  destruct (lookup_lt_is_Some_2 batch_probs (st_i st) Hi) as [r Hr].
  unfold getitem at 1. rewrite Hr. simpl.
  assert (Hne : r <> []) by (apply Hrows; eapply list_elem_of_lookup_2; exact Hr).
  destruct r as [| p r']; [contradiction |]. simpl.
  destruct (uncertainty_returns p Hl) as [u Hu]. rewrite Hu. simpl.
  destruct (np_lt u (Fin speed) || (Z.of_nat loop =? max_loop - 1)%Z); [| eauto].
  unfold setitem. rewrite !decide_True by assumption. simpl. eauto.
Qed.

Lemma inner_succeeds (d loop : nat) (source : Z) (unf : list nat) (st : state)
    (next : list nat) :
  label_size <> 0 ->
  (forall r : row, r ∈ batch_probs -> r <> []) ->
  keep_cls !! loop = Some source ->
  st_i st + length unf <= length batch_probs ->
  Forall (fun ex => ex < length (st_probs st) /\ ex < length (st_sources st)) unf ->
  exists acc,
    for_each (visit label_size speed batch_probs max_loop d loop source) unf (st, next)
    = Ok acc.
Proof.
  intros Hl Hrows Hk. revert st next.
  induction unf as [| ex unf IH]; intros st next Hb Hall; simpl; [eauto |].
  inversion Hall as [| ? ? [Hp Hs] Hall']; subst. simpl in Hb.
  destruct (visit_succeeds d loop source st next ex Hl Hrows) as [[st1 next1] Hv];
    [lia | assumption | assumption |].
  rewrite Hv. simpl.
  destruct (visit_stretch _ _ _ _ _ _ _ _ _ _ _ _ _ Hk Hv) as (e & Hst & _).
  destruct (stretch_lengths _ _ _ _ _ _ _ _ Hst) as [Hlp Hls].
  pose proof (stretch_count _ _ _ _ _ _ _ _ Hst) as Hc. simpl in Hc.
  apply IH; [lia |]. rewrite Hlp, Hls. assumption.
Qed.

Lemma run_loop_succeeds (d loop : nat) (unf : list nat) (st : state) :
  label_size <> 0 ->
  (forall r : row, r ∈ batch_probs -> r <> []) ->
  is_Some (keep_cls !! loop) ->
  st_i st + length unf <= length batch_probs ->
  Forall (fun ex => ex < length (st_probs st) /\ ex < length (st_sources st)) unf ->
  exists acc,
    run_loop label_size speed batch_probs max_loop keep_cls d (st, unf) loop = Ok acc.
Proof.
  intros Hl Hrows [source Hk] Hb Hall. unfold run_loop, getitem. rewrite Hk. simpl.
  apply inner_succeeds; assumption.
Qed.

Lemma loops_succeed (d : nat) (loops : list nat) (unf : list nat) (st : state) :
  label_size <> 0 ->
  (forall r : row, r ∈ batch_probs -> r <> []) ->
  Forall (fun loop => is_Some (keep_cls !! loop)) loops ->
  st_i st + length loops * length unf <= length batch_probs ->
  Forall (fun ex => ex < length (st_probs st) /\ ex < length (st_sources st)) unf ->
  exists acc,
    for_each (run_loop label_size speed batch_probs max_loop keep_cls d) loops (st, unf)
    = Ok acc.
Proof.
  intros Hl Hrows. revert st unf.
  induction loops as [| l loops IH]; intros st unf Hk Hb Hall; cbn [for_each];
    [eauto |].
  inversion Hk as [| ? ? Hk1 Hk2]; subst. simpl in Hb.
  destruct (run_loop_succeeds d l unf st Hl Hrows Hk1) as [[st1 unf1] Hr];
    [lia | assumption |].
  rewrite Hr. cbn [bind].
  apply run_loop_facts in Hr as (evs & Hst & Hex & _ & Hsub & _).
  destruct (stretch_lengths _ _ _ _ _ _ _ _ Hst) as [Hlp Hls].
  pose proof (stretch_count _ _ _ _ _ _ _ _ Hst) as Hc.
  assert (Hlen : length evs = length unf) by (rewrite <- Hex, length_fmap; reflexivity).
  pose proof (sublist_length _ _ Hsub) as Hsl.
  apply IH; [assumption | nia |].
  rewrite Hlp, Hls. rewrite Forall_forall in Hall |- *.
  intros ex Hex'. apply Hall. eapply elem_of_sublist; eassumption.
Qed.

End forward.

(** X8. With one device, a positive [label_size], rows that are not
    empty and at least [batch_size * max_loop] of them, the loops run to
    the end: [_permutate] returns the arrays when every row was read and
    otherwise fails its closing assertion; it raises no [IndexError]
    and no [ZeroDivisionError]. *)
Theorem enough_rows_complete (self : config) (batch_probs : list row) :
  length (_gpu_ids self) <= 1 ->
  label_size self <> 0 ->
  (forall r : row, r ∈ batch_probs -> r <> []) ->
  batch_size self * Z.to_nat (max_loop self) <= length batch_probs ->
  exists st, permutate_loops self batch_probs = Ok st /\
    _permutate self batch_probs
    = if decide (st_i st = length batch_probs)
      then Ok (st_probs st, st_sources st) else Raise AssertionError.
Proof.
  intros Hg Hl Hrows Hb.
  assert (Hloops : exists st, permutate_loops self batch_probs = Ok st).
  { unfold permutate_loops. rewrite n_device_one by assumption. simpl.
    destruct (loops_succeed (label_size self) (_speed self) batch_probs (max_loop self)
                (keep_cls self) 0 (seq 0 (Z.to_nat (max_loop self)))
                (initial_unfinished (d_batch_size self) 0) (initial_state self)
                Hl Hrows) as [[st unf] Hr].
    - apply Forall_forall. intros loop Hin. apply elem_of_seq in Hin.
      apply keep_cls_available. lia.
    - rewrite length_seq. unfold initial_unfinished.
      rewrite length_map, length_seq. unfold d_batch_size.
      rewrite n_device_one, Nat.div_1_r by assumption. simpl. lia.
    - rewrite initial_unfinished_0. unfold d_batch_size.
      rewrite n_device_one, Nat.div_1_r by assumption. simpl.
      rewrite !length_replicate. apply Forall_forall. intros ex Hin.
      apply elem_of_seq in Hin. lia.
    - unfold run_device. simpl st_i. rewrite Hr. simpl. eauto. }
  destruct Hloops as [st Hst]. exists st. split; [assumption |].
  unfold _permutate. rewrite Hst. reflexivity.
Qed.

Lemma enough_rows_complete_witness :
  exists st, permutate_loops cfg_zero rows_zero = Ok st /\
    _permutate cfg_zero rows_zero
    = if decide (st_i st = length rows_zero)
      then Ok (st_probs st, st_sources st) else Raise AssertionError.
Proof.
  apply (enough_rows_complete cfg_zero rows_zero).
  - simpl. lia.
  - simpl. discriminate.
  - intros r Hr. vm_compute in Hr.
    repeat (apply elem_of_cons in Hr as [-> | Hr]; [discriminate |]).
    inversion Hr.
  - vm_compute. lia.
Defined.

(** ** When every row is confident *)

Section confident.
Variables (self : config) (batch_probs : list row).

Local Abbreviation stretch :=
  (stretch (label_size self) (_speed self) batch_probs (max_loop self) (keep_cls self)).
Local Abbreviation device_body :=
  (fun st d =>
     let* (st', _) :=
       run_device (label_size self) (_speed self) batch_probs
         (max_loop self) (keep_cls self) (d_batch_size self) st d in
     Ok st').
Local Abbreviation rows_exit :=
  (forall r : row, r ∈ batch_probs ->
     exists p u, (r : list npfloat) !! 0 = Some p /\
       _uncertainty (label_size self) p = Ok u /\
       np_lt u (Fin (_speed self)) = true).

Lemma sound_exits (e : event) :
  rows_exit ->
  event_sound (label_size self) (_speed self) batch_probs (max_loop self)
    (keep_cls self) e ->
  ev_exit e = true.
Proof.
  intros Hrows (r & p & u & Hr & Hp & Hu & Hx & _).
  destruct (Hrows r) as (p' & u' & Hp' & Hu' & Hlt);
    [eapply list_elem_of_lookup_2; exact Hr |].
  assert (Heq : Some p = Some p') by (rewrite <- Hp; exact Hp').
  inversion Heq; subst p'.
  rewrite Hu in Hu'. inversion Hu'; subst u'.
  rewrite Hx, Hlt. reflexivity.
Qed.

Lemma stretch_all_exit (st st' : state) (evs : list event) :
  rows_exit -> stretch st st' evs -> Forall (fun e => ev_exit e = true) evs.
Proof.
  intros Hrows (_ & _ & _ & _ & _ & _ & Hall).
  eapply Forall_impl; [exact Hall |]. intros e. apply sound_exits. assumption.
Qed.

Lemma loops_on_empty (d : nat) (loops : list nat) (st : state) :
  Forall (fun loop => is_Some (keep_cls self !! loop)) loops ->
  for_each
    (run_loop (label_size self) (_speed self) batch_probs (max_loop self)
       (keep_cls self) d) loops (st, [])
  = Ok (st, []).
Proof.
  induction loops as [| l loops IH]; intros Hk; cbn [for_each]; [reflexivity |].
  inversion Hk as [| ? ? [source Hs] Hk']; subst.
  unfold run_loop at 1. unfold getitem. rewrite Hs. simpl. apply IH. assumption.
Qed.

Lemma device_confident (st : state) (d : nat) :
  (1 <= max_loop self)%Z ->
  label_size self <> 0 ->
  rows_exit ->
  st_i st + d_batch_size self <= length batch_probs ->
  st_i st + d_batch_size self <= length (st_probs st) ->
  st_i st + d_batch_size self <= length (st_sources st) ->
  exists st',
    run_device (label_size self) (_speed self) batch_probs (max_loop self)
      (keep_cls self) (d_batch_size self) st d = Ok (st', []) /\
    st_i st' = st_i st + d_batch_size self /\
    length (st_probs st') = length (st_probs st) /\
    length (st_sources st') = length (st_sources st).
Proof.
  intros Hm Hl Hrows Hb Hp Hs.
  assert (Hne : forall r : row, r ∈ batch_probs -> r <> []).
  { intros r Hr. destruct (Hrows r Hr) as (p & _ & Hp0 & _).
    intros ->. discriminate. }
  unfold run_device.
  replace (Z.to_nat (max_loop self)) with (S (Z.to_nat (max_loop self - 1))) by lia.
  cbn [seq for_each].
  destruct (run_loop_succeeds (label_size self) (_speed self) batch_probs
              (max_loop self) (keep_cls self) d 0
              (initial_unfinished (d_batch_size self) (st_i st)) st Hl Hne)
    as [[st1 unf1] Hr].
  - apply keep_cls_available. lia.
  - unfold initial_unfinished. rewrite length_map, length_seq. assumption.
  - rewrite initial_unfinished_seq. apply Forall_forall. intros ex Hin.
    apply elem_of_seq in Hin. lia.
  - rewrite Hr. cbn [bind].
    apply run_loop_stretch in Hr as (evs & Hst & Hex & _ & Hnext).
    pose proof (stretch_all_exit _ _ _ Hrows Hst) as Hall.
    rewrite (no_stayers evs Hall) in Hnext. simpl in Hnext. subst unf1.
    rewrite loops_on_empty.
    + exists st1. split; [reflexivity |].
      destruct (stretch_lengths _ _ _ _ _ _ _ _ Hst) as [Hlp Hls].
      pose proof (stretch_count _ _ _ _ _ _ _ _ Hst) as Hc.
      assert (Hlen : length evs = d_batch_size self).
      { rewrite <- (length_fmap ev_example), Hex. unfold initial_unfinished.
        rewrite length_map, length_seq. reflexivity. }
      split; [lia | auto].
    + apply Forall_forall. intros loop Hin. apply elem_of_seq in Hin.
      apply keep_cls_available. lia.
Qed.

Lemma devices_confident (devices : list nat) (st : state) :
  (1 <= max_loop self)%Z ->
  label_size self <> 0 ->
  rows_exit ->
  st_i st + length devices * d_batch_size self <= length batch_probs ->
  st_i st + length devices * d_batch_size self <= length (st_probs st) ->
  st_i st + length devices * d_batch_size self <= length (st_sources st) ->
  exists st', for_each device_body devices st = Ok st'.
Proof.
  intros Hm Hl Hrows. revert st.
  induction devices as [| d devices IH]; intros st Hb Hp Hs; cbn [for_each]; [eauto |].
  simpl in Hb, Hp, Hs.
  destruct (device_confident st d Hm Hl Hrows) as (st1 & Hr & Hi & Hlp & Hls);
    [lia | lia | lia |].
  rewrite Hr. cbn [bind]. apply IH; lia.
Qed.

(** X9. For any number of devices: with at least one pass to make, a
    positive [label_size] and exactly one row per example of the chunks,
    if every row scores below [_speed] then [_permutate] returns, the
    example at index [k] of the chunks gets row [k] and the first kept
    stage as its source, and entries past the chunks keep their initial
    zeros. *)
Theorem confident_rows_pass_through :
  (1 <= max_loop self)%Z ->
  label_size self <> 0 ->
  length batch_probs = n_device self * d_batch_size self ->
  (forall r : row, r ∈ batch_probs ->
     exists p u, (r : list npfloat) !! 0 = Some p /\
       _uncertainty (label_size self) p = Ok u /\
       np_lt u (Fin (_speed self)) = true) ->
  exists probs sources,
    _permutate self batch_probs = Ok (probs, sources) /\
    forall k,
      (k < n_device self * d_batch_size self ->
       probs !! k = batch_probs !! k /\ sources !! k = keep_cls self !! 0) /\
      (n_device self * d_batch_size self <= k -> k < batch_size self ->
       probs !! k = Some (replicate (label_size self) (Fin 0)) /\
       sources !! k = Some 0%Z).
Proof.
  intros Hm Hl Hlen Hrows. pose proof chunks_fit self as Hfit.
  destruct (devices_confident (seq 0 (n_device self)) (initial_state self) Hm Hl Hrows)
    as [st Hst].
  - rewrite length_seq. simpl. lia.
  - rewrite length_seq. simpl. rewrite length_replicate. lia.
  - rewrite length_seq. simpl. rewrite length_replicate. lia.
  - change (permutate_loops self batch_probs = Ok st) in Hst.
    pose proof (permutate_loops_stretch self batch_probs st Hst) as Hs.
    pose proof (stretch_all_exit _ _ _ Hrows Hs) as Hall.
    exists (st_probs st), (st_sources st). split.
    + apply permutate_ok. exists st. split; [assumption |].
      destruct (all_exit_contents self batch_probs st 0 Hm Hst Hall) as (Hi & _).
      split; [lia | reflexivity].
    + intros k.
      destruct (all_exit_contents self batch_probs st k Hm Hst Hall) as (_ & Hin & Hout).
      split; [assumption |]. intros Hk Hkb. destruct (Hout Hk) as [Hp Hsrc].
      split.
      * etransitivity; [exact Hp |]. simpl. apply lookup_replicate_2. assumption.
      * etransitivity; [exact Hsrc |]. simpl. apply lookup_replicate_2. assumption.
Qed.

End confident.

Lemma sure_row_confident :
  np_lt (Fin (uncertainty_formula 2 1)) (Fin (1 / 10)) = true.
Proof. pose proof (leaves_one false) as H. rewrite orb_false_r in H. exact H. Qed.

Lemma confident_rows_pass_through_witness :
  exists probs sources,
    _permutate cfg_c rows_sure = Ok (probs, sources) /\
    forall k,
      (k < n_device cfg_c * d_batch_size cfg_c ->
       probs !! k = rows_sure !! k /\ sources !! k = keep_cls cfg_c !! 0) /\
      (n_device cfg_c * d_batch_size cfg_c <= k -> k < batch_size cfg_c ->
       probs !! k = Some (replicate (label_size cfg_c) (Fin 0)) /\
       sources !! k = Some 0%Z).
Proof.
  apply (confident_rows_pass_through cfg_c rows_sure).
  - vm_compute. discriminate.
  - simpl. discriminate.
  - reflexivity.
  - intros r Hr. exists (Fin 1), (Fin (uncertainty_formula 2 1)).
    assert (Hrow : r = sure_row).
    { unfold rows_sure in Hr.
      repeat (apply elem_of_cons in Hr as [-> | Hr]; [reflexivity |]).
      inversion Hr. }
    subst r. split; [reflexivity |]. split; [apply uncertainty_one |].
    apply sure_row_confident.
Defined.

(** ** Thresholds that switch the cascade off *)

Section thresholds.
Local Open Scope R_scope.


Lemma one_label_score (p : npfloat) : p <> NaN -> _uncertainty 1 p = Ok NInf.
Proof.
  intros Hp. destruct p as [x | | |]; [apply one_label_fin | | | contradiction].
  - rewrite uncertainty_infinite by auto. apply one_label_fin.
  - rewrite uncertainty_infinite by auto. apply one_label_fin.
Qed.


(** X11. With a single label the score of every row is [-inf], below
    any threshold: whatever [_speed], one row per example of the chunks
    and no [nan] in the first column make [_permutate] return with
    every such example at the first kept stage. *)
Theorem one_label_first_stage (self : config) (batch_probs : list row) :
  (1 <= max_loop self)%Z ->
  label_size self = 1%nat ->
  length batch_probs = (n_device self * d_batch_size self)%nat ->
  (forall r : row, r ∈ batch_probs ->
     exists p, (r : list npfloat) !! 0%nat = Some p /\ p <> NaN) ->
  exists probs sources,
    _permutate self batch_probs = Ok (probs, sources) /\
    forall k, (k < n_device self * d_batch_size self)%nat ->
      probs !! k = batch_probs !! k /\ sources !! k = keep_cls self !! 0%nat.
Proof.
  intros Hm Hl Hlen Hrows.
  destruct (confident_rows_pass_through self batch_probs Hm) as (probs & sources & H & Hc).
  - lia.
  - assumption.
  - intros r Hr. destruct (Hrows r Hr) as (p & Hp & Hn).
    exists p, NInf. split; [assumption |]. split; [| reflexivity].
    rewrite Hl. apply one_label_score. assumption.
  - exists probs, sources. split; [assumption |]. intros k Hk. apply Hc. assumption.
Qed.

End thresholds.


Lemma one_label_first_stage_witness :
  exists probs sources,
    _permutate cfg_one rows_one = Ok (probs, sources) /\
    forall k, k < n_device cfg_one * d_batch_size cfg_one ->
      probs !! k = rows_one !! k /\ sources !! k = keep_cls cfg_one !! 0.
Proof.
  apply (one_label_first_stage cfg_one rows_one).
  - vm_compute. discriminate.
  - reflexivity.
  - reflexivity.
  - intros r Hr. exists (Fin 1).
    assert (Hrow : r = [Fin 1]).
    { unfold rows_one in Hr.
      repeat (apply elem_of_cons in Hr as [-> | Hr]; [reflexivity |]).
      inversion Hr. }
    subst r. split; [reflexivity | discriminate].
Defined.

(** ** More than one device *)

Section several_devices.
Variables (self : config) (batch_probs : list row).

Local Abbreviation stretch :=
  (stretch (label_size self) (_speed self) batch_probs (max_loop self) (keep_cls self)).
Local Abbreviation device_body :=
  (fun st d =>
     let* (st', _) :=
       run_device (label_size self) (_speed self) batch_probs
         (max_loop self) (keep_cls self) (d_batch_size self) st d in
     Ok st').

Lemma n_device_pos : 1 <= n_device self.
Proof. unfold n_device. lia. Qed.

Lemma devices_split :
  seq 0 (n_device self) = seq 0 (n_device self - 1) ++ [n_device self - 1].
Proof.
  pose proof n_device_pos.
  replace (n_device self) with (S (n_device self - 1)) at 1 by lia.
  rewrite seq_S. reflexivity.
Qed.

Lemma no_writer_below (evs : list event) (k : nat) :
  Forall (fun e => ev_example e <> k) evs -> filter (writes_to k) evs = [].
Proof.
  induction evs as [| e evs IH]; intros H; [reflexivity |].
  inversion H; subst. rewrite filter_cons, decide_False; [auto |].
  intros [He _]. contradiction.
Qed.

(** X12. With the batch divided evenly among the devices, [_permutate]
    returns only when every example outside the last chunk left in the
    first pass of its chunk: each of them holds the row of its own
    index and the first kept stage.  (A later chunk starts at the count
    of rows read, so one more row read by an earlier chunk sends the
    last chunk past the end of [probs].) *)
Theorem early_chunks_leave_at_once (probs : list row) (sources : list Z) :
  batch_size self = n_device self * d_batch_size self ->
  1 <= d_batch_size self ->
  (1 <= max_loop self)%Z ->
  _permutate self batch_probs = Ok (probs, sources) ->
  forall k, k < (n_device self - 1) * d_batch_size self ->
    probs !! k = batch_probs !! k /\ sources !! k = keep_cls self !! 0.
Proof.
  intros Hdiv Hd Hm H k Hk.
  apply permutate_ok in H as (st & Hst & _ & Hout).
  inversion Hout; subst probs sources; clear Hout.
  unfold permutate_loops in Hst. rewrite devices_split, for_each_app in Hst.
  apply bind_ok in Hst as (mid & Hmid & Hlast).
  cbn [for_each] in Hlast. apply bind_ok in Hlast as (st1 & Hlast & Heq).
  inversion Heq; subst st1; clear Heq.
  apply bind_ok in Hlast as ([st1 unf'] & Hlast & Heq).
  inversion Heq; subst st1; clear Heq.
  set (m := n_device self - 1) in *.
  (* the chunks before the last *)
  pose proof Hmid as Hcount. apply devices_count in Hcount as (evsA & HsA & _ & HlowA).
  rewrite length_seq in HlowA. destruct (HlowA Hm) as [HgeA HallA]. clear HlowA.
  pose proof (stretch_count _ _ _ _ _ _ _ _ HsA) as HiA. simpl in HiA.
  destruct (stretch_lengths _ _ _ _ _ _ _ _ HsA) as [HlpA _]. simpl in HlpA.
  rewrite length_replicate in HlpA.
  (* the last chunk *)
  destruct (device_lower _ _ _ _ _ _ _ _ _ _ Hm Hlast) as (evsB & HsB & _ & HpermB & _).
  pose proof Hlast as Hpl. unfold run_device in Hpl.
  apply loops_placed in Hpl as (evsB' & HsB' & HplB).
  pose proof (stretch_unique _ _ _ _ _ _ _ _ _ HsB HsB'). subst evsB'.
  rewrite initial_unfinished_seq in HpermB, HplB.
  assert (Hfits : st_i mid + d_batch_size self <= batch_size self).
  { assert (Hin : st_i mid + d_batch_size self - 1 ∈ exited evsB).
    { rewrite <- HpermB. apply elem_of_seq. lia. }
    unfold exited in Hin. apply list_elem_of_fmap in Hin as (e & He & Hin).
    apply list_elem_of_filter in Hin as [Hx Hin].
    rewrite Forall_forall in HplB. destruct (HplB e Hin) as [_ Hr].
    specialize (Hr Hx). rewrite HlpA in Hr. lia. }
  assert (Hexact : length evsA = m * d_batch_size self).
  { assert (n_device self = S m) by (pose proof n_device_pos; lia). nia. }
  assert (HhA : st_history mid = evsA) by (destruct HsA as (-> & _); reflexivity).
  assert (HexitA : Forall (fun e => ev_exit e = true) (st_history mid)).
  { rewrite HhA. apply HallA. assumption. }
  assert (Hfit : length (seq 0 m) * d_batch_size self <= batch_size self).
  { rewrite length_seq. pose proof n_device_pos. nia. }
  destruct (devices_all_exit_contents self batch_probs (seq 0 m) mid k Hm Hfit Hmid HexitA)
    as (_ & Hin & _).
  rewrite length_seq in Hin. destruct (Hin Hk) as [Hp Hs].
  (* the last chunk leaves index k alone *)
  assert (Hno : filter (writes_to k) evsB = []).
  { apply no_writer_below. eapply Forall_impl; [exact HplB |].
    intros e [He _] Heq. rewrite Heq in He. apply elem_of_seq in He. lia. }
  destruct HsB as (_ & _ & _ & _ & HsrcB & HprbB & _).
  rewrite HprbB, HsrcB. rewrite untouched_prob, untouched_source by assumption.
  auto.
Qed.

End several_devices.

Lemma scenario_c : _permutate cfg_c rows_c = Ok ([sure_row; half_row], [0%Z; 1%Z]).
Proof.
  apply permutate_ok.
  unfold permutate_loops, run_device, run_loop, cfg_c, max_loop, keep_cls. simpl.
  visit_with uncertainty_one leaves_one.
  visit_with uncertainty_half (stays_half (1 / 10) false tenth_le_1).
  visit_with uncertainty_half (stays_half (1 / 10) true tenth_le_1).
  eexists. split; [reflexivity |]. split; reflexivity.
Qed.

Lemma early_chunks_leave_at_once_witness :
  0 < (n_device cfg_c - 1) * d_batch_size cfg_c /\
  [sure_row; half_row] !! 0 = rows_c !! 0 /\
  [0%Z; 1%Z] !! 0 = keep_cls cfg_c !! 0.
Proof.
  assert (H0 : 0 < (n_device cfg_c - 1) * d_batch_size cfg_c) by (vm_compute; lia).
  split; [exact H0 |].
  apply (early_chunks_leave_at_once cfg_c rows_c [sure_row; half_row] [0%Z; 1%Z]).
  - reflexivity.
  - vm_compute. lia.
  - vm_compute. discriminate.
  - apply scenario_c.
  - exact H0.
Defined.

(** ** An example is finished once *)

Section once.
Variables (label_size : nat) (speed : R) (batch_probs : list row).
Variables (max_loop : Z) (keep_cls : list Z).

Local Abbreviation stretch := (stretch label_size speed batch_probs max_loop keep_cls).

Lemma fmap_NoDup_inj {A B : Type} (f : A -> B) (l : list A) (x y : A) :
  NoDup (f <$> l) -> x ∈ l -> y ∈ l -> f x = f y -> x = y.
Proof.
  induction l as [| z l IH]; intros Hnd Hx Hy Heq; [inversion Hx |].
  rewrite fmap_cons in Hnd. apply NoDup_cons in Hnd as [Hz Hnd].
  apply elem_of_cons in Hx as [-> | Hx]; apply elem_of_cons in Hy as [-> | Hy].
  - reflexivity.
  - exfalso. apply Hz. rewrite Heq. apply list_elem_of_fmap_2. assumption.
  - exfalso. apply Hz. rewrite <- Heq. apply list_elem_of_fmap_2. assumption.
  - apply IH; assumption.
Qed.

Lemma loops_once (d n a : nat) (st : state) (unf : list nat)
    (st' : state) (unf' : list nat) :
  NoDup unf ->
  for_each (run_loop label_size speed batch_probs max_loop keep_cls d)
    (seq a n) (st, unf) = Ok (st', unf') ->
  exists evs, stretch st st' evs /\ finished_once evs.
Proof.
  revert a st unf. induction n as [| n IH]; intros a st unf Hnd H; simpl in H.
  - inversion H; subst. exists []. split; [apply stretch_nil |].
    intros e e' He. inversion He.
  - apply bind_ok in H as ([st1 unf1] & H1 & H).
    apply run_loop_stretch in H1 as (evsA & HsA & HexA & HdlA & Hnext).
    assert (Hnd1 : NoDup unf1).
    { subst unf1. apply (sublist_NoDup _ unf); [exact Hnd |].
      rewrite <- HexA. apply fmap_sublist, sublist_filter. }
    pose proof H as Hf. apply loops_facts in Hf as (evsB & HsB & HdlB & _).
    pose proof H as Hp. apply loops_placed in Hp as (evsB' & HsB' & HplB).
    pose proof (stretch_unique _ _ _ _ _ _ _ _ _ HsB HsB'). subst evsB'.
    apply (IH _ _ _ Hnd1) in H as (evsB'' & HsB'' & Honce).
    pose proof (stretch_unique _ _ _ _ _ _ _ _ _ HsB HsB''). subst evsB''.
    exists (evsA ++ evsB).
    split; [apply (stretch_trans _ _ _ _ _ st st1 st'); assumption |].
    assert (HndA : NoDup (ev_example <$> evsA)) by (rewrite HexA; assumption).
    rewrite Forall_forall in HdlA, HdlB, HplB.
    assert (Hstay : forall e', e' ∈ evsB -> exists e0, e0 ∈ evsA /\
              ev_example e0 = ev_example e' /\ ev_exit e0 = false).
    { intros e' He'. destruct (HplB e' He') as [Hin _]. subst unf1.
      apply list_elem_of_fmap in Hin as (e0 & Heq & Hin).
      apply list_elem_of_filter in Hin as [Hx Hin].
      exists e0. split; [assumption |]. split; [auto |].
      destruct (ev_exit e0); [contradiction | reflexivity]. }
    intros e e' He He' Heq Hx.
    apply elem_of_app in He as [He | He]; apply elem_of_app in He' as [He' | He'].
    + left. symmetry. eapply fmap_NoDup_inj; eassumption.
    + exfalso. destruct (Hstay e' He') as (e0 & He0 & Heq0 & Hx0).
      assert (e0 = e).
      { eapply fmap_NoDup_inj; [exact HndA | assumption | assumption | congruence]. }
      subst e0. congruence.
    + right. destruct (Hstay e He) as (e0 & He0 & Heq0 & Hx0).
      assert (e0 = e').
      { eapply fmap_NoDup_inj; [exact HndA | assumption | assumption | congruence]. }
      subst e0. split; [| assumption].
      destruct (HdlA e' He') as [_ ->]. destruct (HdlB e He) as [_ Hl].
      apply elem_of_seq in Hl. lia.
    + apply Honce; assumption.
Qed.

(** X13. Within a device chunk an example is given its result at most
    once: any other iteration that read a row for it belongs to an
    earlier pass and left it unfinished, so no row is read for an
    example after its exit. *)
Theorem exit_is_final (d d_batch_size : nat) (st st' : state) (unf' : list nat) :
  run_device label_size speed batch_probs max_loop keep_cls d_batch_size st d
  = Ok (st', unf') ->
  exists evs, st_history st' = st_history st ++ evs /\
    forall e e', e ∈ evs -> e' ∈ evs -> ev_example e = ev_example e' ->
      ev_exit e = true ->
      e' = e \/ (ev_loop e' < ev_loop e /\ ev_exit e' = false).
Proof.
  intros H. unfold run_device in H. apply loops_once in H as (evs & Hs & Honce).
  - exists evs. split; [destruct Hs as (Hh & _); exact Hh | exact Honce].
  - rewrite initial_unfinished_seq. apply NoDup_seq.
Qed.

End once.

Lemma exit_is_final_witness :
  exists evs,
    [mk_event 0 0 0 0 1 false; mk_event 0 1 0 1 2 true]
    = st_history (initial_state cfg_b) ++ evs /\
    forall e e', e ∈ evs -> e' ∈ evs -> ev_example e = ev_example e' ->
      ev_exit e = true ->
      e' = e \/ (ev_loop e' < ev_loop e /\ ev_exit e' = false).
Proof.
  apply (exit_is_final 2 (1 / 10) rows_b (max_loop cfg_b) (keep_cls cfg_b) 0
           (d_batch_size cfg_b) (initial_state cfg_b)
           (mk_state [half_row; [Fin 0; Fin 0]] [2%Z; 0%Z] 2
              [mk_event 0 0 0 0 1 false; mk_event 0 1 0 1 2 true]) []).
  apply first_chunk_b.
Defined.

(** ** Calling the prologue again *)

Section prologue_again.
Variables (mode raw_ignore_cls : Type).
Variable convert_ignore_cls : raw_ignore_cls -> result (list Z).

Lemma score_is_predict (self : Prologue.instance mode) (speed : R) (arg : raw_ignore_cls) :
  Prologue.score mode raw_ignore_cls convert_ignore_cls self speed arg
  = Prologue.predict mode raw_ignore_cls convert_ignore_cls self speed arg.
Proof. reflexivity. Qed.

Lemma export_is_predict (self : Prologue.instance mode) (speed : R) (arg : raw_ignore_cls) :
  Prologue.export mode raw_ignore_cls convert_ignore_cls self speed arg
  = Prologue.predict mode raw_ignore_cls convert_ignore_cls self speed arg.
Proof. reflexivity. Qed.

Lemma predict_again (self self1 : Prologue.instance mode) (speed : R)
    (arg : raw_ignore_cls) :
  Prologue.predict mode raw_ignore_cls convert_ignore_cls self speed arg = Ok self1 ->
  Prologue.predict mode raw_ignore_cls convert_ignore_cls self1 speed arg = Ok self1.
Proof.
  unfold Prologue.predict. intros H.
  destruct (convert_ignore_cls arg) as [ig | e]; simpl in *; [| discriminate].
  inversion H; subst self1; clear H. destruct self as [ig0 sp0 sm0]. simpl.
  repeat match goal with
         | |- context [decide ?P] => destruct (decide P); simpl in *
         end;
  repeat match goal with
         | H : ~ (_ <> _) |- _ => apply dec_stable in H
         end; subst; try reflexivity; try contradiction; try congruence.
Qed.

(** X14. The prologues of [predict], [score] and [export] are
    interchangeable and idempotent: after any one of them has run with
    some [speed] and [ignore_cls], running any of the three again with
    the same arguments leaves [_ignore_cls], [_speed] and
    [_session_mode] as they are. *)
Theorem prologue_settles (self self1 : Prologue.instance mode) (speed : R)
    (arg : raw_ignore_cls) :
  Prologue.predict mode raw_ignore_cls convert_ignore_cls self speed arg = Ok self1 \/
  Prologue.score mode raw_ignore_cls convert_ignore_cls self speed arg = Ok self1 \/
  Prologue.export mode raw_ignore_cls convert_ignore_cls self speed arg = Ok self1 ->
  Prologue.predict mode raw_ignore_cls convert_ignore_cls self1 speed arg = Ok self1 /\
  Prologue.score mode raw_ignore_cls convert_ignore_cls self1 speed arg = Ok self1 /\
  Prologue.export mode raw_ignore_cls convert_ignore_cls self1 speed arg = Ok self1.
Proof.
  intros H. assert (Hp : Prologue.predict mode raw_ignore_cls convert_ignore_cls
                           self speed arg = Ok self1).
  { destruct H as [H | [H | H]]; [exact H | |].
    - rewrite <- score_is_predict. exact H.
    - rewrite <- export_is_predict. exact H. }
  apply predict_again in Hp.
  split; [exact Hp |]. split.
  - rewrite score_is_predict. exact Hp.
  - rewrite export_is_predict. exact Hp.
Qed.

End prologue_again.

Lemma prologue_settles_witness :
  Prologue.predict unit (list Z) Ok
    (Prologue.mk_instance unit [0%Z; 1%Z] (1 / 2) None) (1 / 2)%R [0%Z; 1%Z]
  = Ok (Prologue.mk_instance unit [0%Z; 1%Z] (1 / 2) None) /\
  Prologue.score unit (list Z) Ok
    (Prologue.mk_instance unit [0%Z; 1%Z] (1 / 2) None) (1 / 2)%R [0%Z; 1%Z]
  = Ok (Prologue.mk_instance unit [0%Z; 1%Z] (1 / 2) None) /\
  Prologue.export unit (list Z) Ok
    (Prologue.mk_instance unit [0%Z; 1%Z] (1 / 2) None) (1 / 2)%R [0%Z; 1%Z]
  = Ok (Prologue.mk_instance unit [0%Z; 1%Z] (1 / 2) None).
Proof.
  apply (prologue_settles unit (list Z) Ok
           (Prologue.mk_instance unit [0%Z] (1 / 10) (Some tt))
           (Prologue.mk_instance unit [0%Z; 1%Z] (1 / 2) None) (1 / 2)%R [0%Z; 1%Z]).
  left. unfold Prologue.predict. simpl.
  destruct (decide ([0%Z; 1%Z] <> [0%Z])) as [_ | Hn];
    [| exfalso; apply Hn; discriminate].
  simpl.
  destruct (decide ((1 / 2)%R <> (1 / 10)%R)) as [_ | Hn];
    [reflexivity | exfalso; apply Hn; lra].
Defined.

(** ** What [convert] returns *)

Section convert_facts.
Variables raw tokens label weight feature label_id weight_value array helper_exn : Type.
Variable _assert_legal :
  option (list raw) -> option (list label) -> option (list weight) ->
  option (list tokens) -> Convert.outcome helper_exn unit.
Variable _convert_X :
  Convert.x_argument raw tokens -> Convert.tokenized_flag tokens ->
  Convert.outcome helper_exn (list feature * list feature * list feature).
Variable _convert_y : list label -> Convert.outcome helper_exn (list label_id).
Variable _convert_sample_weight :
  option (list weight) -> option nat -> Convert.outcome helper_exn (list weight_value).
Variable int32_2d : list feature -> array.
Variable int32_1d : list label_id -> array.
Variable float32_1d : list weight_value -> array.

Local Abbreviation convert :=
  (Convert.convert raw tokens label weight feature label_id weight_value array
     helper_exn _assert_legal _convert_X _convert_y _convert_sample_weight
     int32_2d int32_1d float32_1d).
Local Abbreviation convert_inputs :=
  (Convert.convert_inputs raw tokens feature array helper_exn _convert_X int32_2d).

Lemma convert_inputs_keys (gpus : list Z) (bs : nat) (X : option (list raw))
    (Xt : option (list tokens)) (bs' : nat) (data : gmap string array)
    (n : option nat) :
  convert_inputs gpus bs X Xt = (bs', Convert.Done (data, n)) ->
  dom data =
    (if bool_decide (is_Some X \/ is_Some Xt)
     then {["input_ids"; "input_mask"; "segment_ids"]} else ∅ : gset string) /\
  (is_Some n <-> is_Some X \/ is_Some Xt).
Proof.
  unfold Convert.convert_inputs.
  destruct X as [x |], Xt as [xt |];
    try (match goal with
         | |- context [_convert_X ?a ?t] =>
             destruct (_convert_X a t) as [[[i1 i2] i3] | e]; [| discriminate]
         end;
         intros H; inversion H; subst; clear H;
         rewrite bool_decide_true
           by (first [left; solve [eauto] | right; solve [eauto]]);
         rewrite !dom_insert_L, dom_empty_L;
         split;
         [set_solver
         | split; [intros _; first [left; solve [eauto] | right; solve [eauto]]
                  | eauto]]).
  intros H. inversion H; subst; clear H.
  rewrite bool_decide_false by (intros [[? ?] | [? ?]]; discriminate).
  rewrite dom_empty_L. split; [reflexivity |].
  split; [intros [? ?]; discriminate | intros [[? ?] | [? ?]]; discriminate].
Qed.

(** X15. When [convert] returns a dict, its keys are exactly:
    [input_ids], [input_mask] and [segment_ids] when [X] or
    [X_tokenized] was given; [label_ids] when [y] was given; and
    [sample_weight] when training or when [y] was given.  It never
    returns labels in training. *)
Theorem convert_keys (gpus : list Z) (bs : nat) (X : option (list raw))
    (y : option (list label)) (sample_weight : option (list weight))
    (Xt : option (list tokens)) (is_training : bool) (bs' : nat)
    (data : gmap string array) :
  convert gpus bs X y sample_weight Xt is_training = (bs', Convert.Done data) ->
  dom data =
    (if bool_decide (is_Some X \/ is_Some Xt)
     then {["input_ids"; "input_mask"; "segment_ids"]} else ∅) ∪
    (if bool_decide (is_Some y) then {["label_ids"]} else ∅) ∪
    (if is_training || bool_decide (is_Some y) then {["sample_weight"]} else ∅
     : gset string) /\
  (is_training = true -> y = None).
Proof.
  unfold Convert.convert.
  destruct (_assert_legal X y sample_weight Xt) as [[] | e]; [| discriminate].
  destruct (is_training && bool_decide (is_Some y)) eqn:Htl; [discriminate |].
  destruct (convert_inputs gpus bs X Xt) as [bs1 [[d1 n1] | e]] eqn:Hin; [| discriminate].
  apply convert_inputs_keys in Hin as [Hdom _].
  intros H. split.
  - revert H. destruct y as [ly |].
    + rewrite (bool_decide_true (is_Some (Some ly))) by eauto.
      rewrite orb_true_r.
      destruct (_convert_y ly) as [ids | e]; [| discriminate].
      destruct (_convert_sample_weight sample_weight n1) as [w | e]; [| discriminate].
      intros H. inversion H; subst; clear H. rewrite !dom_insert_L, Hdom. clear.
      destruct (bool_decide (is_Some X \/ is_Some Xt)); set_unfold; try intros k; tauto.
    + rewrite (bool_decide_false (is_Some None)) by (intros [? ?]; discriminate).
      rewrite orb_false_r.
      destruct is_training.
      * destruct (_convert_sample_weight sample_weight n1) as [w | e]; [| discriminate].
        intros H. inversion H; subst; clear H. rewrite !dom_insert_L, Hdom. clear.
      destruct (bool_decide (is_Some X \/ is_Some Xt)); set_unfold; try intros k; tauto.
      * intros H. inversion H; subst; clear H. rewrite Hdom. clear.
        destruct (bool_decide (is_Some X \/ is_Some Xt)); set_unfold; try intros k; tauto.
  - intros ->. simpl in Htl. destruct y as [ly |]; [| reflexivity].
    rewrite bool_decide_true in Htl by eauto. discriminate.
Qed.

Lemma convert_inputs_size (gpus : list Z) (bs : nat) (X : option (list raw))
    (Xt : option (list tokens)) (bs' : nat)
    (out : Convert.outcome (Convert.failure helper_exn) (gmap string array * option nat)) :
  convert_inputs gpus bs X Xt = (bs', out) ->
  (X = None -> Xt = None -> bs' = bs) /\
  (length gpus <= bs -> length gpus <= bs' <= bs) /\
  (forall d n, out = Convert.Done (d, Some n) ->
     bs' = if decide (n < bs) then max n (length gpus) else bs).
Proof.
  unfold Convert.convert_inputs.
  destruct X as [x |], Xt as [xt |];
    try (match goal with
         | |- context [_convert_X ?a ?t] =>
             destruct (_convert_X a t) as [[[i1 i2] i3] | e]
         end;
         intros H; inversion H; subst; clear H;
         (split; [intros; discriminate |]);
         (split; [intros Hg; try case_decide; lia |]);
         intros d n Hd; inversion Hd; subst; reflexivity).
  intros H. inversion H; subst; clear H.
  split; [reflexivity |]. split; [lia |]. intros d n Hd. inversion Hd.
Qed.

(** X16. Whatever [convert] does next (return or raise), it leaves
    [batch_size] alone when no input was given, and when there were no
    more devices than [batch_size] it never raises [batch_size] and
    never lowers it below the number of devices. *)
Theorem convert_batch_size (gpus : list Z) (bs : nat) (X : option (list raw))
    (y : option (list label)) (sample_weight : option (list weight))
    (Xt : option (list tokens)) (is_training : bool) (bs' : nat)
    (out : Convert.outcome (Convert.failure helper_exn) (gmap string array)) :
  convert gpus bs X y sample_weight Xt is_training = (bs', out) ->
  (X = None -> Xt = None -> bs' = bs) /\
  (length gpus <= bs -> length gpus <= bs' <= bs).
Proof.
  unfold Convert.convert.
  destruct (_assert_legal X y sample_weight Xt) as [[] | e];
    [| intros H; inversion H; subst; split; [reflexivity | lia]].
  destruct (is_training && bool_decide (is_Some y));
    [intros H; inversion H; subst; split; [reflexivity | lia] |].
  destruct (convert_inputs gpus bs X Xt) as [bs1 out1] eqn:Hin.
  apply convert_inputs_size in Hin as (H1 & H2 & _).
  intros H. assert (bs' = bs1).
  { revert H. destruct out1 as [[d1 n1] | e]; [| intros H; inversion H; reflexivity].
    destruct y as [ly |]; [destruct (_convert_y ly) |];
      try (intros H; inversion H; reflexivity);
      destruct (is_training || bool_decide _);
      try destruct (_convert_sample_weight sample_weight n1);
      intros H; inversion H; reflexivity. }
  subst bs1. auto.
Qed.

End convert_facts.

Lemma convert_keys_witness :
  dom (<["sample_weight" := [1; 1]]>
         (<["label_ids" := [0; 1]]>
            (<["segment_ids" := [0; 0]]>
               (<["input_mask" := [1; 1]]>
                  (<["input_ids" := [7; 9]]> (∅ : gmap string (list nat)))))))
  = (if bool_decide (is_Some (Some [5; 6]) \/ is_Some (@None (list nat)))
     then {["input_ids"; "input_mask"; "segment_ids"]} else ∅) ∪
    (if bool_decide (is_Some (Some [0; 1])) then {["label_ids"]} else ∅) ∪
    (if false || bool_decide (is_Some (Some [0; 1])) then {["sample_weight"]} else ∅
     : gset string) /\
  (false = true -> Some [0; 1] = None).
Proof.
  apply (convert_keys nat nat nat nat nat nat nat (list nat) unit
           (fun _ _ _ _ => Convert.Done tt)
           (fun _ _ => Convert.Done ([7; 9], [1; 1], [0; 0]))
           (fun y => Convert.Done y)
           (fun _ _ => Convert.Done [1; 1])
           (fun l => l) (fun l => l) (fun l => l)
           [] 8 (Some [5; 6]) (Some [0; 1]) None None false 2).
  vm_compute. reflexivity.
Defined.

Lemma convert_batch_size_witness :
  (Some [5; 6] = None -> @None (list nat) = None -> 2 = 8) /\
  (length [0%Z; 1%Z] <= 8 -> length [0%Z; 1%Z] <= 2 <= 8).
Proof.
  apply (convert_batch_size nat nat nat nat nat nat nat (list nat) unit
           (fun _ _ _ _ => Convert.Done tt)
           (fun _ _ => Convert.Done ([7; 9], [1; 1], [0; 0]))
           (fun y => Convert.Done y)
           (fun _ _ => Convert.Failed tt)
           (fun l => l) (fun l => l) (fun l => l)
           [0%Z; 1%Z] 8 (Some [5; 6]) (Some [0; 1]) None None false 2
           (Convert.Failed (Convert.Helper unit tt))).
  vm_compute. reflexivity.
Defined.

(** ** The pass at which an example leaves *)

Section leaving_pass.
Variables (label_size : nat) (speed : R) (batch_probs : list row).
Variables (max_loop : Z) (keep_cls : list Z).

Local Abbreviation stretch := (stretch label_size speed batch_probs max_loop keep_cls).

Lemma loops_consecutive (d n a : nat) (st : state) (unf : list nat)
    (st' : state) (unf' : list nat) :
  for_each (run_loop label_size speed batch_probs max_loop keep_cls d)
    (seq a n) (st, unf) = Ok (st', unf') ->
  exists evs, stretch st st' evs /\
    forall e j, e ∈ evs -> a <= j < ev_loop e ->
      exists e0, e0 ∈ evs /\ ev_example e0 = ev_example e /\
        ev_loop e0 = j /\ ev_exit e0 = false.
Proof.
  revert a st unf. induction n as [| n IH]; intros a st unf H; simpl in H.
  - inversion H; subst. exists []. split; [apply stretch_nil |].
    intros e j He. inversion He.
  - apply bind_ok in H as ([st1 unf1] & H1 & H).
    apply run_loop_stretch in H1 as (evsA & HsA & HexA & HdlA & Hnext).
    pose proof H as Hf. apply loops_facts in Hf as (evsB & HsB & HdlB & _).
    pose proof H as Hp. apply loops_placed in Hp as (evsB' & HsB' & HplB).
    pose proof (stretch_unique _ _ _ _ _ _ _ _ _ HsB HsB'). subst evsB'.
    apply IH in H as (evsB'' & HsB'' & Hcons).
    pose proof (stretch_unique _ _ _ _ _ _ _ _ _ HsB HsB''). subst evsB''.
    exists (evsA ++ evsB).
    split; [apply (stretch_trans _ _ _ _ _ st st1 st'); assumption |].
    rewrite Forall_forall in HdlA, HdlB, HplB.
    intros e j He Hj. apply elem_of_app in He as [He | He].
    + destruct (HdlA e He) as [_ Hl]. lia.
    + destruct (decide (j = a)) as [-> | Hne].
      * destruct (HplB e He) as [Hin _]. subst unf1.
        apply list_elem_of_fmap in Hin as (e0 & Heq & Hin).
        apply list_elem_of_filter in Hin as [Hx Hin].
        exists e0. split; [apply elem_of_app; left; assumption |].
        split; [auto |]. destruct (HdlA e0 Hin) as [_ Hl0].
        split; [assumption |]. destruct (ev_exit e0); [contradiction | reflexivity].
      * destruct (Hcons e j He) as (e0 & He0 & Hrest); [lia |].
        exists e0. split; [apply elem_of_app; right; assumption | assumption].
Qed.

(** X17. In a device chunk an example is read at consecutive passes from
    the first one on: an entry at pass [l] comes after entries for the
    same example at every pass before [l], none of which scored below
    [speed] or was the last pass; and an exit is at a pass whose row
    scored below [speed], or at the last pass.  So an example leaves at
    the first kept stage where its score is below the threshold, and at
    the last one otherwise. *)
Theorem leaves_at_first_confident_pass (d d_batch_size : nat) (st st' : state)
    (unf' : list nat) :
  run_device label_size speed batch_probs max_loop keep_cls d_batch_size st d
  = Ok (st', unf') ->
  exists evs, st_history st' = st_history st ++ evs /\
    (forall e, e ∈ evs -> ev_exit e = true ->
       (exists (r : row) p u, batch_probs !! ev_row e = Some r /\
          (r : list npfloat) !! 0 = Some p /\ _uncertainty label_size p = Ok u /\
          np_lt u (Fin speed) = true) \/
       Z.of_nat (ev_loop e) = (max_loop - 1)%Z) /\
    (forall e j, e ∈ evs -> j < ev_loop e ->
       exists e0 (r : row) p u, e0 ∈ evs /\ ev_example e0 = ev_example e /\
         ev_loop e0 = j /\ ev_exit e0 = false /\
         batch_probs !! ev_row e0 = Some r /\
         (r : list npfloat) !! 0 = Some p /\ _uncertainty label_size p = Ok u /\
         np_lt u (Fin speed) = false /\
         Z.of_nat j <> (max_loop - 1)%Z).
Proof.
  intros H. unfold run_device in H.
  apply loops_consecutive in H as (evs & Hs & Hcons).
  pose proof Hs as (Hh & _ & _ & _ & _ & _ & Hsound).
  rewrite Forall_forall in Hsound.
  exists evs. split; [exact Hh |]. split.
  - intros e He Hx. destruct (Hsound e He) as (r & p & u & Hr & Hp & Hu & Hexit & _).
    rewrite Hx in Hexit. symmetry in Hexit. apply orb_true_iff in Hexit as [Hlt | Hl].
    + left. exists r, p, u. auto.
    + right. apply Z.eqb_eq in Hl. assumption.
  - intros e j He Hj. destruct (Hcons e j He) as (e0 & He0 & Hex & Hl & Hx); [lia |].
    destruct (Hsound e0 He0) as (r & p & u & Hr & Hp & Hu & Hexit & _).
    rewrite Hx in Hexit. symmetry in Hexit. apply orb_false_iff in Hexit as [Hlt Hlast].
    exists e0, r, p, u. repeat split; try assumption.
    apply Z.eqb_neq in Hlast. rewrite <- Hl. assumption.
Qed.

End leaving_pass.

Lemma leaves_at_first_confident_pass_witness :
  exists evs,
    [mk_event 0 0 0 0 1 false; mk_event 0 1 0 1 2 true]
    = st_history (initial_state cfg_b) ++ evs /\
    (forall e, e ∈ evs -> ev_exit e = true ->
       (exists (r : row) p u, rows_b !! ev_row e = Some r /\
          (r : list npfloat) !! 0 = Some p /\ _uncertainty 2 p = Ok u /\
          np_lt u (Fin (1 / 10)) = true) \/
       Z.of_nat (ev_loop e) = (max_loop cfg_b - 1)%Z) /\
    (forall e j, e ∈ evs -> j < ev_loop e ->
       exists e0 (r : row) p u, e0 ∈ evs /\ ev_example e0 = ev_example e /\
         ev_loop e0 = j /\ ev_exit e0 = false /\
         rows_b !! ev_row e0 = Some r /\
         (r : list npfloat) !! 0 = Some p /\ _uncertainty 2 p = Ok u /\
         np_lt u (Fin (1 / 10)) = false /\
         Z.of_nat j <> (max_loop cfg_b - 1)%Z).
Proof.
  apply (leaves_at_first_confident_pass 2 (1 / 10) rows_b (max_loop cfg_b)
           (keep_cls cfg_b) 0 (d_batch_size cfg_b) (initial_state cfg_b)
           (mk_state [half_row; [Fin 0; Fin 0]] [2%Z; 0%Z] 2
              [mk_event 0 0 0 0 1 false; mk_event 0 1 0 1 2 true]) []).
  apply first_chunk_b.
Defined.
